(** * Text extraction pipeline: a shallow embedding and its properties

    The development follows the Python sources module by module:

    - [PyStr]: Python [str] values as sequences of code points, with the
      string methods the pipeline calls ([strip], [split], [join],
      [replace]);
    - [Re]: the fragment of the [re] module the sources use, with the
      scanning loop of [re.sub];
    - [NLPProcessor] (services/nlp_processing.py);
    - [MLEnhancementModel] (models/ml_enchancement.py);
    - [OCRModel] (models/ocr_model.py);
    - [ImagePreprocessor] (services/image_preprocessing.py);
    - [TextExtractionService] (services/text_extraction.py);
    - [Described]: what the properties say, in the words of the
      specification, and [Toy], a backend over records to run the pipeline;
    - [FileHandler] (utils/file_handler.py), [TranslationModel]
      (models/translation_model.py) and [TranslationService]
      (services/translation_service.py);
    - [Binary64]: the corrector on binary64 confidences; [Document],
      [Observed], [Samples] and [Mixed]: notions and inputs of the
      properties;
    - the facts about each module, then the properties C1 to C10 and X1
      to X14.

    Confidence scores, blur and contrast metrics are Python floats in the
    sources; they are modelled by exact rationals ([Q]), so rounding of
    binary64 arithmetic is outside that model.  Where rounding decides a
    property, the corrector's confidence is computed on binary64 floats
    as well ([Binary64]). *)

From Stdlib Require Import PrimFloat FloatAxioms.
From Stdlib Require Import QArith Qminmax Lia Lqa String Ascii NArith.
From stdpp Require Import base option list gmap.

Set Default Proof Using "Type".

(** Decimal literals of floats denote the nearest binary64 value, as in
    Python. *)
Set Warnings "-inexact-float".

(** Strict comparison of two numbers, as a test. *)
Definition Qltb (x y : Q) : bool := negb (Qle_bool y x).

(* ===================================================================== *)
(** ** Python strings *)
(* ===================================================================== *)

Module PyStr.

(** A Python [str] is a sequence of Unicode code points. *)
Definition codepoint := N.
Bind Scope N_scope with codepoint.
Definition str := list codepoint.

(** ASCII literals of the sources. *)
Definition lit (s : string) : str :=
  map N_of_ascii (list_ascii_of_string s).

Definition NL : codepoint := 10%N.       (* '\n' *)
Definition SP : codepoint := 32%N.       (* ' '  *)
Definition HYPHEN : codepoint := 45%N.   (* '-'  *)
Definition DOT : codepoint := 46%N.      (* '.'  *)
Definition COMMA : codepoint := 44%N.    (* ','  *)
Definition BULLET : codepoint := 8226%N. (* U+2022 *)

Definition in_range (lo hi c : codepoint) : bool :=
  ((lo <=? c) && (c <=? hi))%N.

(** [str.isspace] on one code point, which is also what [\s] matches in a
    [str] pattern: U+0009..U+000D, U+001C..U+0020, U+0085, U+00A0, U+1680,
    U+2000..U+200A, U+2028, U+2029, U+202F, U+205F, U+3000. *)
Definition isspace (c : codepoint) : bool :=
  (in_range 9 13 c || in_range 28 32 c || (c =? 133) || (c =? 160)
   || (c =? 5760) || in_range 8192 8202 c || (c =? 8232)
   || (c =? 8233) || (c =? 8239) || (c =? 8287) || (c =? 12288))%N.

(** Truth value of a string in a condition: non-empty. *)
Definition truthy (s : str) : bool :=
  match s with [] => false | _ :: _ => true end.

Fixpoint lstrip (s : str) : str :=
  match s with
  | c :: s' => if isspace c then lstrip s' else s
  | [] => []
  end.

Definition rstrip (s : str) : str := rev (lstrip (rev s)).

(** [s.strip()] *)
Definition strip (s : str) : str := rstrip (lstrip s).

(** [sep.join(parts)] *)
Fixpoint join (sep : str) (parts : list str) : str :=
  match parts with
  | [] => []
  | [p] => p
  | p :: ps => p ++ sep ++ join sep ps
  end.

(** [s.split()]: maximal runs of non-whitespace code points.  [cur] is the
    word being read, in reverse. *)
Fixpoint split_from (cur : str) (s : str) : list str :=
  match s with
  | [] => match cur with [] => [] | _ => [rev cur] end
  | c :: s' =>
      if isspace c
      then match cur with
           | [] => split_from [] s'
           | _ => rev cur :: split_from [] s'
           end
      else split_from (c :: cur) s'
  end.

Definition split (s : str) : list str := split_from [] s.

Fixpoint starts_with (p s : str) : bool :=
  match p, s with
  | [], _ => true
  | a :: p', b :: s' => (a =? b)%N && starts_with p' s'
  | _ :: _, [] => false
  end.

(** [s.replace(old, new)] for a non-empty [old]: every non-overlapping
    occurrence, leftmost first.  [skip] counts the code points of the
    occurrence just replaced that are still to be passed over. *)
Fixpoint replace_from (old new : str) (s : str) (skip : nat) : str :=
  match s with
  | [] => []
  | c :: s' =>
      match skip with
      | S k => replace_from old new s' k
      | O =>
          if starts_with old s
          then new ++ replace_from old new s' (pred (length old))
          else c :: replace_from old new s' 0
      end
  end.

(** With an empty [old], Python puts [new] before every code point and at
    the end. *)
Definition replace (old new : str) (s : str) : str :=
  match old with
  | [] => new ++ flat_map (fun c => c :: new) s
  | _ :: _ => replace_from old new s 0
  end.

End PyStr.

Import PyStr.

(* ===================================================================== *)
(** ** The [re] fragment used by the sources *)
(* ===================================================================== *)

Module Re.

(** Every pattern of the sources is a sequence of: one character class,
    a greedy repetition [{lo,}] of one character class (so [+] is [{1,}]
    and [*] is [{0,}]), a numbered group around such items, and
    one-character look-behind and look-ahead assertions. *)
Inductive regex :=
| Cls (p : codepoint -> bool)
| Rep (lo : nat) (p : codepoint -> bool)
| Grp (i : nat) (r : regex)
| Seq (r1 r2 : regex)
| Behind (want : bool) (p : codepoint -> bool)
| Ahead (want : bool) (p : codepoint -> bool).

(** State of one match attempt: the code point before the cursor (for
    look-behind), the number of code points consumed since the attempt
    started, the remaining input, and the groups captured so far. *)
Record mstate := MState {
  m_prev : option codepoint;
  m_pos : nat;
  m_rest : str;
  m_groups : gmap nat str
}.

(** Greedy repetition: the longest run is tried first, then shorter ones
    down to [lo] repetitions. *)
Fixpoint greedy (p : codepoint -> bool) (lo : nat) (prev : option codepoint)
    (n : nat) (s : str) (g : gmap nat str) : list mstate :=
  let stop := match lo with O => [MState prev n s g] | S _ => [] end in
  match s with
  | c :: s' =>
      if p c then greedy p (pred lo) (Some c) (S n) s' g ++ stop else stop
  | [] => stop
  end.

Definition holds (p : codepoint -> bool) (o : option codepoint) : bool :=
  match o with Some c => p c | None => false end.

(** The backtracking matcher: all the ways [r] matches at the cursor, in
    the order the engine tries them. *)
Fixpoint run (r : regex) (st : mstate) : list mstate :=
  match r with
  | Cls p =>
      match m_rest st with
      | c :: s' =>
          if p c then [MState (Some c) (S (m_pos st)) s' (m_groups st)]
          else []
      | [] => []
      end
  | Rep lo p => greedy p lo (m_prev st) (m_pos st) (m_rest st) (m_groups st)
  | Grp i r' =>
      map (fun st' =>
             MState (m_prev st') (m_pos st') (m_rest st')
               (<[i := take (m_pos st' - m_pos st) (m_rest st)]>
                  (m_groups st')))
          (run r' st)
  | Seq r1 r2 => flat_map (run r2) (run r1 st)
  | Behind want p =>
      if Bool.eqb (holds p (m_prev st)) want then [st] else []
  | Ahead want p =>
      if Bool.eqb (holds p (head (m_rest st))) want then [st] else []
  end.

(** One attempt at the cursor.  With [must_advance] an empty match is
    rejected and the engine backtracks into the next alternative. *)
Definition match_here (r : regex) (must_advance : bool)
    (prev : option codepoint) (s : str) : option mstate :=
  head (List.filter (fun st => negb must_advance || (0 <? m_pos st))%nat
                    (run r (MState prev 0 s ∅))).

(** Replacement templates: literal code points and group references. *)
Inductive piece :=
| Lit (c : codepoint)
| Ref (i : nat).

Definition expand (t : list piece) (g : gmap nat str) : str :=
  flat_map (fun p => match p with
                     | Lit c => [c]
                     | Ref i => default [] (g !! i)
                     end) t.

(** The loop of [re.sub(pattern, repl, s)]: search the leftmost match from
    the cursor, copy the text before it, emit the expanded template and
    go on from the end of the match; after an empty match the next
    attempt at the same place must advance.  [skip] counts the code points
    of the current match that are still to be passed over. *)
Fixpoint sub_from (r : regex) (t : list piece) (prev : option codepoint)
    (s : str) (skip : nat) : str :=
  match s with
  | [] =>
      match match_here r false prev [] with
      | Some st => expand t (m_groups st)
      | None => []
      end
  | c :: s' =>
      match skip with
      | S k => sub_from r t (Some c) s' k
      | O =>
          match match_here r false prev s with
          | Some st =>
              expand t (m_groups st) ++
              match m_pos st with
              | S k => sub_from r t (Some c) s' k
              | O =>
                  match match_here r true prev s with
                  | Some st2 =>
                      expand t (m_groups st2)
                        ++ sub_from r t (Some c) s' (pred (m_pos st2))
                  | None => c :: sub_from r t (Some c) s' 0
                  end
              end
          | None => c :: sub_from r t (Some c) s' 0
          end
      end
  end.

Definition sub (r : regex) (t : list piece) (s : str) : str :=
  sub_from r t None s 0.

End Re.

Import Re.

(* ===================================================================== *)
(** ** Unicode tables of the Python runtime *)
(* ===================================================================== *)

(** The character database is part of the interpreter, not of the
    repository.  The pipeline reads it through [\d] and [\w] in patterns
    and through [str.lower] and [str.capitalize]. *)
Class Unicode := {
  isdecimal : codepoint -> bool;    (* what [\d] matches *)
  isalnum : codepoint -> bool;      (* [\w] is [isalnum] or '_' *)
  lower : str -> str;               (* [str.lower] *)
  capitalize : str -> str           (* [str.capitalize] *)
}.

(** The tables restricted to ASCII, to evaluate the pipeline on ASCII
    inputs. *)
Definition ascii_lower (c : codepoint) : codepoint :=
  if in_range 65 90 c then (c + 32)%N else c.
Definition ascii_upper (c : codepoint) : codepoint :=
  if in_range 97 122 c then (c - 32)%N else c.

Definition ascii_tables : Unicode := {|
  isdecimal c := in_range 48 57 c;
  isalnum c := in_range 48 57 c || in_range 65 90 c || in_range 97 122 c;
  lower s := map ascii_lower s;
  capitalize s :=
    match s with
    | [] => []
    | c :: s' => ascii_upper c :: map ascii_lower s'
    end
|}.

(** Character classes of the patterns. *)
Definition ch (a : codepoint) (c : codepoint) : bool := (c =? a)%N.
Definition word `{Unicode} (c : codepoint) : bool := isalnum c || ch 95 c.
Definition digit09 : codepoint -> bool := in_range 48 57.   (* [0-9] *)
Definition lower_az : codepoint -> bool := in_range 97 122. (* [a-z] *)
Definition upper_AZ : codepoint -> bool := in_range 65 90.  (* [A-Z] *)
Definition letter (c : codepoint) : bool := upper_AZ c || lower_az c.

Declare Scope re_scope.
Delimit Scope re_scope with re.
Infix "⋅" := Seq (at level 40, left associativity) : re_scope.
Bind Scope re_scope with regex.

(* ===================================================================== *)
(** ** services/nlp_processing.py *)
(* ===================================================================== *)

Module NLPProcessor.
Section NLP.
Context `{Unicode}.

(** An entity of a spaCy document: [ent.text] and [ent.label_]. *)
Definition entity : Type := str * str.

(** The processor object.  [nlp] is [None] when spaCy or its model could
    not be loaded; calling it may raise. *)
Record t := {
  enable_spell_check : bool;
  enable_ner : bool;
  nlp : option (str -> option (list entity))
}.

(** [self.patterns] *)
Definition patterns : list (regex * list piece) := [
  (* (\d+)\.(\d+)  ->  \1.\2 *)
  ((Grp 1 (Rep 1 isdecimal) ⋅ Cls (ch DOT) ⋅ Grp 2 (Rep 1 isdecimal))%re,
   [Ref 1; Lit DOT; Ref 2]);
  (* (\w+)\s+,\s+(\w+)  ->  \1, \2 *)
  ((Grp 1 (Rep 1 word) ⋅ Rep 1 isspace ⋅ Cls (ch COMMA) ⋅ Rep 1 isspace
      ⋅ Grp 2 (Rep 1 word))%re,
   [Ref 1; Lit COMMA; Lit SP; Ref 2]);
  (* (\w+)\s+\.\s+(\w+)  ->  \1. \2 *)
  ((Grp 1 (Rep 1 word) ⋅ Rep 1 isspace ⋅ Cls (ch DOT) ⋅ Rep 1 isspace
      ⋅ Grp 2 (Rep 1 word))%re,
   [Ref 1; Lit DOT; Lit SP; Ref 2]);
  (* \s{2,}  ->  ' ' *)
  (Rep 2 isspace, [Lit SP]);
  (* ([a-z])([A-Z])  ->  \1 \2 *)
  ((Grp 1 (Cls lower_az) ⋅ Grp 2 (Cls upper_AZ))%re,
   [Ref 1; Lit SP; Ref 2])
].

(** [_fix_patterns]: each pass works on the output of the one before. *)
Definition _fix_patterns (text : str) : str :=
  fold_left (fun processed '(pattern, replacement) =>
               Re.sub pattern replacement processed)
            patterns text.

(** [_ensure_proper_case] *)
Definition _ensure_proper_case (text : str) : str :=
  join [SP] (map capitalize (split text)).

Definition ner_labels : list str :=
  [lit "PERSON"; lit "ORG"; lit "GPE"; lit "LOC"].

(** [_apply_spacy_processing]; [None] when the call of the model raises. *)
Definition _apply_spacy_processing (self : t) (model : str -> option (list entity))
    (text : str) : option str :=
  match model text with
  | None => None
  | Some ents =>
      Some (if enable_ner self
            then fold_left
                   (fun text '(ent_text, label) =>
                      if bool_decide (label ∈ ner_labels)
                      then replace ent_text (_ensure_proper_case ent_text) text
                      else text)
                   ents text
            else text)
  end.

(** The three patterns of [_fix_paragraphs]. *)
Definition single_break : regex :=      (* (?<!\n)\n(?!\n) *)
  (Behind false (ch NL) ⋅ Cls (ch NL) ⋅ Ahead false (ch NL))%re.
Definition many_breaks : regex :=       (* \n{3,} *)
  Rep 3 (ch NL).
Definition bullet_class (c : codepoint) : bool :=   (* [\s•-] *)
  isspace c || ch BULLET c || ch HYPHEN c.
Definition bullet_lead : regex :=       (* (?<=\n)[\s•-]*(?=•) *)
  (Behind true (ch NL) ⋅ Rep 0 bullet_class ⋅ Ahead true (ch BULLET))%re.

(** [_fix_paragraphs] *)
Definition _fix_paragraphs (text : str) : str :=
  let text := Re.sub single_break [Lit SP] text in
  let text := Re.sub many_breaks [Lit NL; Lit NL] text in
  let text := Re.sub bullet_lead [] text in
  text.

(** [process_text] *)
Definition process_text (self : t) (text : str) : str :=
  if negb (truthy text) || negb (truthy (strip text)) then text
  else
    let processed_text := _fix_patterns text in
    let processed_text :=
      match nlp self with
      | Some model =>
          match _apply_spacy_processing self model processed_text with
          | Some out => out
          | None => processed_text      (* except: warning only *)
          end
      | None => processed_text
      end in
    _fix_paragraphs processed_text.

End NLP.
End NLPProcessor.

(* ===================================================================== *)
(** ** models/ml_enchancement.py *)
(* ===================================================================== *)

Module MLEnhancementModel.
Section ML.
Context `{Unicode}.

(** The model object.  [_apply_ml_corrections] is a placeholder in the
    sources (it logs and returns its argument); it is a field here so that
    the handler around its call has something to handle: [None] stands for
    a raised exception. *)
Record t := {
  initialized : bool;
  _apply_ml_corrections : str -> option str
}.

(** The placeholder body of the sources. *)
Definition placeholder_corrections (text : str) : option str := Some text.

(** [self.common_errors], in insertion order. *)
Definition common_errors : list (regex * list piece) := [
  (* ([0-9])([A-Za-z])  ->  \1 \2 *)
  ((Grp 1 (Cls digit09) ⋅ Grp 2 (Cls letter))%re, [Ref 1; Lit SP; Ref 2]);
  (* ([A-Za-z])([0-9])  ->  \1 \2 *)
  ((Grp 1 (Cls letter) ⋅ Grp 2 (Cls digit09))%re, [Ref 1; Lit SP; Ref 2]);
  (* l([^a-z])  ->  I\1 *)
  ((Cls (ch 108) ⋅ Grp 1 (Cls (fun c => negb (lower_az c))))%re,
   [Lit 73; Ref 1]);
  (* (\w)\.(\w)  ->  \1. \2 *)
  ((Grp 1 (Cls word) ⋅ Cls (ch DOT) ⋅ Grp 2 (Cls word))%re,
   [Ref 1; Lit DOT; Lit SP; Ref 2]);
  (* \s{2,}  ->  ' ' *)
  (Rep 2 isspace, [Lit SP])
].

(** [char_replacements], in insertion order. *)
Definition char_replacements : list (str * str) := [
  (lit "0", lit "O"); (lit "O", lit "O");
  (lit "l", lit "l"); (lit "I", lit "I");
  (lit ";", lit ";");
  (lit "`", lit "'");
  ([194; 180]%N, lit "'")
].

(** [_apply_rule_based_corrections] *)
Definition _apply_rule_based_corrections (text : str) : str :=
  let enhanced_text :=
    fold_left (fun enhanced_text '(pattern, replacement) =>
                 Re.sub pattern replacement enhanced_text)
              common_errors text in
  fold_left (fun enhanced_text '(old, new) =>
               if bool_decide (old ≠ new)
               then replace old new enhanced_text
               else enhanced_text)
            char_replacements enhanced_text.

(** [enhance_text] *)
Definition enhance_text (self : t) (text : str) (confidence : Q) : str * Q :=
  if negb (truthy text) || negb (truthy (strip text)) then (text, confidence)
  else
    let enhanced_text := _apply_rule_based_corrections text in
    if initialized self && Qltb confidence 0.85
    then
      match _apply_ml_corrections self enhanced_text with
      | Some out => (out, Qmin 1 (confidence * 1.15))
      | None => (enhanced_text, confidence)
      end
    else (enhanced_text, Qmin 1 (confidence * 1.05)).

End ML.
End MLEnhancementModel.

(* ===================================================================== *)
(** ** The libraries behind the pipeline *)
(* ===================================================================== *)

(** What [pytesseract.image_to_data] returns with [Output.DICT]: the
    columns ['text'] and ['conf'], one entry per recognised box. *)
Record ocr_data := {
  data_text : list str;
  data_conf : list Q
}.

(** PIL, numpy, OpenCV, pytesseract and pdfplumber are outside the
    repository.  Each call the sources make is a field; a call that can
    raise returns an [option], [None] standing for the exception. *)
Class Backend := {
  pil : Type;                       (* PIL.Image.Image *)
  ndarray : Type;                   (* numpy.ndarray *)
  contour : Type;
  pdf_page : Type;
  np_array : pil -> ndarray;                        (* np.array(image) *)
  fromarray : ndarray -> option pil;                (* Image.fromarray *)
  shape : ndarray -> list nat;                      (* img.shape *)
  std : ndarray -> Q;                               (* img.std() *)
  cvtColor_BGR2GRAY : ndarray -> option ndarray;
  laplacian_var : ndarray -> option Q;      (* cv2.Laplacian(..).var() *)
  convertScaleAbs : ndarray -> Q -> Q -> option ndarray;
  GaussianBlur_3x3 : ndarray -> option ndarray;
  adaptiveThreshold_gaussian_11_2 : ndarray -> option ndarray;
  fastNlMeansDenoising_10_7_21 : ndarray -> option ndarray;
  filter2D_sharpen : ndarray -> option ndarray;
  threshold_otsu : ndarray -> option ndarray;       (* THRESH_BINARY *)
  threshold_otsu_inv : ndarray -> option ndarray;   (* THRESH_BINARY_INV *)
  findContours : ndarray -> option (list contour);
  contourArea : contour -> option Q;
  minAreaRect_angle : contour -> option Q;          (* minAreaRect(c)[2] *)
  warpAffine_rotation :                             (* about a centre *)
    ndarray -> nat * nat -> Q -> nat * nat -> option ndarray;
  image_to_data : pil -> str -> option ocr_data;
  Image_open : str -> option pil;
  pdfplumber_open : str -> option (list pdf_page);
  page_extract_text : pdf_page -> option (option str);  (* None or a str *)
  page_to_image : pdf_page -> option pil
}.

(** An image argument is a PIL image or an array. *)
Definition image `{Backend} : Type := pil + ndarray.

(* ===================================================================== *)
(** ** Calls that are observed, and exceptions *)
(* ===================================================================== *)

(** The calls of one extraction that the properties speak about. *)
Inductive event `{Backend} :=
| Recognize (img : pil) (lang : str)      (* pytesseract.image_to_data *)
| Enhance (text : str) (confidence : Q)   (* ml_model.enhance_text *)
| Normalize (text : str).                 (* nlp_processor.process_text *)

(** A computation makes calls, then returns a value or raises. *)
Definition io `{Backend} (A : Type) : Type := list event * option A.

Definition io_ret `{Backend} {A} (a : A) : io A := ([], Some a).
Definition io_raise `{Backend} {A} : io A := ([], None).
Definition io_tell `{Backend} (e : event) : io unit := ([e], Some tt).
Definition io_bind `{Backend} {A B} (f : A -> io B) (m : io A) : io B :=
  match m with
  | (log, Some a) => let '(log', r) := f a in (log ++ log', r)
  | (log, None) => (log, None)
  end.
(** A library call that may raise. *)
Definition io_lift `{Backend} {A} (o : option A) : io A := ([], o).
(** [try: m except Exception: h] *)
Definition io_try `{Backend} {A} (m : io A) (h : io A) : io A :=
  match m with
  | (log, Some a) => (log, Some a)
  | (log, None) => let '(log', r) := h in (log ++ log', r)
  end.

#[global] Instance io_mret `{Backend} : MRet io := @io_ret _.
#[global] Instance io_mbind `{Backend} : MBind io := @io_bind _.

(* ===================================================================== *)
(** ** models/ocr_model.py *)
(* ===================================================================== *)

Module OCRModel.
Section OCR.
Context `{Backend}.

Record t := {
  lang : str;
  language_mapping : gmap str str
}.

(** The table built by [__init__]. *)
Definition default_language_mapping : gmap str str :=
  list_to_map
    (map (fun '(k, v) => (lit k, lit v))
       [("en", "eng"); ("es", "spa"); ("fr", "fra"); ("de", "deu");
        ("it", "ita"); ("pt", "por"); ("nl", "nld"); ("ru", "rus");
        ("zh", "chi_sim+chi_tra"); ("ja", "jpn"); ("ko", "kor");
        ("ar", "ara"); ("hi", "hin"); ("bn", "ben"); ("pa", "pan");
        ("te", "tel"); ("ta", "tam"); ("ur", "urd"); ("fa", "fas");
        ("tr", "tur"); ("pl", "pol"); ("uk", "ukr"); ("vi", "vie");
        ("th", "tha"); ("id", "ind")]%string).

(** [OCRModel()] with its default arguments. *)
Definition create : t :=
  {| lang := lit "eng"; language_mapping := default_language_mapping |}.

(** [_map_language_code] *)
Definition _map_language_code (self : t) (lang_code : str) : str :=
  if bool_decide (lang_code = lit "auto") then lit "eng"
  else default (lit "eng") (language_mapping self !! lang_code).

(** [np.mean] of a non-empty list. *)
Definition mean (l : list Q) : Q :=
  (fold_right Qplus 0 l / inject_Z (Z.of_nat (length l)))%Q.

(** The two list comprehensions of [extract_text_from_image]. *)
Definition full_text_of (data : ocr_data) : str :=
  join [SP] (List.filter (fun word => truthy (strip word)) (data_text data)).

Definition confidences_of (data : ocr_data) : list Q :=
  map fst
    (List.filter (fun '(conf, text) =>
                    truthy (strip text) && negb (Qeq_bool conf (-1)%Q))
                 (zip (data_conf data) (data_text data))).

Definition confidence_score_of (data : ocr_data) : Q :=
  let confidences := confidences_of data in
  match confidences with
  | [] => 0%Q
  | _ :: _ => (mean confidences / 100)%Q
  end.

(** The language handed to Tesseract:
    [self._map_language_code(lang) if lang else self.lang]. *)
Definition ocr_language (self : t) (lang_code : option str) : str :=
  match lang_code with
  | Some l => if truthy l then _map_language_code self l else lang self
  | None => lang self
  end.

(** [extract_text_from_image] *)
Definition extract_text_from_image (self : t) (img : image)
    (lang_code : option str) : io (str * Q) :=
  img ← match img with
        | inr array => io_lift (fromarray array)
        | inl p => mret p
        end;
  let ocr_lang := ocr_language self lang_code in
  _ ← io_tell (Recognize img ocr_lang);
  data ← io_lift (image_to_data img ocr_lang);
  mret (full_text_of data, confidence_score_of data).

(** One iteration of the page loop of [extract_text_from_pdf], on the
    two accumulators. *)
Definition pdf_page_step (self : t) (lang_code : option str)
    (acc : list str * list Q) (page : pdf_page) : io (list str * list Q) :=
  let '(extracted_texts, confidence_scores) := acc in
  text ← io_lift (page_extract_text page);
  match text with
  | Some text =>
      if truthy text && truthy (strip text)
      then mret (extracted_texts ++ [text], confidence_scores ++ [0.95%Q])
      else
        img ← io_lift (page_to_image page);
        '(page_text, page_conf) ←
          extract_text_from_image self (inl img) lang_code;
        mret (extracted_texts ++ [page_text], confidence_scores ++ [page_conf])
  | None =>
      img ← io_lift (page_to_image page);
      '(page_text, page_conf) ←
        extract_text_from_image self (inl img) lang_code;
      mret (extracted_texts ++ [page_text], confidence_scores ++ [page_conf])
  end.

Fixpoint pdf_page_loop (self : t) (lang_code : option str)
    (pages : list pdf_page) (acc : list str * list Q)
  : io (list str * list Q) :=
  match pages with
  | [] => mret acc
  | page :: pages' =>
      acc' ← pdf_page_step self lang_code acc page;
      pdf_page_loop self lang_code pages' acc'
  end.

(** [extract_text_from_pdf] *)
Definition extract_text_from_pdf (self : t) (pdf_path : str)
    (lang_code : option str) : io (str * Q) :=
  pages ← io_lift (pdfplumber_open pdf_path);
  '(extracted_texts, confidence_scores) ←
    pdf_page_loop self lang_code pages ([], []);
  let full_text := join [NL; NL] extracted_texts in
  let avg_confidence :=
    match confidence_scores with
    | [] => 0%Q
    | _ :: _ => mean confidence_scores
    end in
  mret (full_text, avg_confidence).

End OCR.
End OCRModel.

(* ===================================================================== *)
(** ** services/image_preprocessing.py *)
(* ===================================================================== *)

Module ImagePreprocessor.
Section Preprocessing.
Context `{Backend}.

(** The [enhance_level] argument: ['auto'], one of the three tiers, or any
    other string. *)
Inductive level := low | medium | high.
Inductive enhance_level := auto | fixed (l : level) | other.

(** The first lines of [preprocess] and of [deskew]: the array of the
    image, and its grayscale version when it has three channels. *)
Definition to_array (img : image) : ndarray :=
  match img with
  | inl p => np_array p
  | inr array => array
  end.

Definition is_color (img_array : ndarray) : bool :=
  match shape img_array with
  | [_; _; channels] => (channels =? 3)%nat
  | _ => false
  end.

Definition to_gray (img_array : ndarray) : option ndarray :=
  if is_color img_array then cvtColor_BGR2GRAY img_array
  else Some img_array.

(** [_determine_enhancement_level] *)
Definition _determine_enhancement_level (img : ndarray) : option level :=
  blur ← laplacian_var img;
  let contrast := std img in
  if Qltb 100 blur && Qltb 50 contrast then Some low
  else if Qltb 50 blur && Qltb 30 contrast then Some medium
  else Some high.

(** [_apply_low_enhancement] *)
Definition _apply_low_enhancement (img : ndarray) : option ndarray :=
  enhanced ← convertScaleAbs img 1.1 0;
  GaussianBlur_3x3 enhanced.

(** [_apply_medium_enhancement] *)
Definition _apply_medium_enhancement (img : ndarray) : option ndarray :=
  enhanced ← convertScaleAbs img 1.3 10;
  enhanced ← GaussianBlur_3x3 enhanced;
  adaptiveThreshold_gaussian_11_2 enhanced.

(** [_apply_high_enhancement] *)
Definition _apply_high_enhancement (img : ndarray) : option ndarray :=
  denoised ← fastNlMeansDenoising_10_7_21 img;
  enhanced ← convertScaleAbs denoised 1.5 30;
  enhanced ← filter2D_sharpen enhanced;
  threshold_otsu enhanced.

(** [preprocess] *)
Definition preprocess (img : image) (enhance : enhance_level) : option pil :=
  let img_array := to_array img in
  gray ← to_gray img_array;
  enhance ← match enhance with
            | auto => fixed <$> _determine_enhancement_level gray
            | _ => Some enhance
            end;
  processed ← match enhance with
              | fixed low => _apply_low_enhancement gray
              | fixed medium => _apply_medium_enhancement gray
              | fixed high => _apply_high_enhancement gray
              | _ => Some gray
              end;
  fromarray processed.

(** [np.median]: the middle of the sorted values, or the mean of the two
    middle ones. *)
Fixpoint insert_sorted (x : Q) (l : list Q) : list Q :=
  match l with
  | [] => [x]
  | y :: l' => if Qle_bool x y then x :: l else y :: insert_sorted x l'
  end.

Definition sorted (l : list Q) : list Q := fold_right insert_sorted [] l.

Definition median (l : list Q) : Q :=
  let s := sorted l in
  let n := length s in
  if Nat.even n
  then ((nth (n / 2 - 1) s 0 + nth (n / 2) s 0) / 2)%Q
  else nth (n / 2) s 0%Q.

(** The loop of [deskew] over the contours: small contours are skipped,
    the others contribute the angle of their rectangle. *)
Fixpoint collect_angles (contours : list contour) (angles : list Q)
  : option (list Q) :=
  match contours with
  | [] => Some angles
  | c :: contours' =>
      area ← contourArea c;
      if Qltb area 100 then collect_angles contours' angles
      else
        angle ← minAreaRect_angle c;
        let angle := if Qltb angle (-45) then (90 + angle)%Q else angle in
        collect_angles contours' (angles ++ [angle])
  end.

(** The angle [deskew] rotates by: lines "Apply threshold" to "Calculate
    median angle" of its [try] block. *)
Definition skew_angle (gray : ndarray) : option Q :=
  binary ← threshold_otsu_inv gray;
  contours ← findContours binary;
  angles ← collect_angles contours [];
  Some (match angles with
        | [] => 0%Q
        | _ :: _ => median angles
        end).

(** The rest of the [try] block: "Rotate image". *)
Definition rotate (img_array : ndarray) (median_angle : Q) : option pil :=
  match shape img_array with
  | h :: w :: _ =>
      let center := (w / 2, h / 2)%nat in
      rotated ← warpAffine_rotation img_array center median_angle (w, h);
      fromarray rotated
  | _ => None
  end.

(** The whole [try] block. *)
Definition deskew_try (img_array gray : ndarray) : option pil :=
  median_angle ← skew_angle gray;
  rotate img_array median_angle.

(** [deskew]: the conversions come before the [try]; what raises there
    leaves the function, what raises inside is answered with the
    argument. *)
Definition deskew (img : image) : option image :=
  let img_array := to_array img in
  gray ← to_gray img_array;
  match deskew_try img_array gray with
  | Some rotated => Some (inl rotated)
  | None => Some img
  end.

End Preprocessing.
End ImagePreprocessor.

(* ===================================================================== *)
(** ** services/text_extraction.py *)
(* ===================================================================== *)

Module TextExtractionService.
Section Service.
Context `{Unicode} `{Backend}.

(** [os.path] of the platform: the separator and the alternative one. *)
Variable sep : codepoint.
Variable altsep : option codepoint.

(** [s.rfind(c)]: the last index of [c], or -1. *)
Fixpoint rfind_from (c : codepoint) (s : str) (i : Z) (found : Z) : Z :=
  match s with
  | [] => found
  | d :: s' => rfind_from c s' (i + 1) (if (d =? c)%N then i else found)
  end.

Definition rfind (c : codepoint) (s : str) : Z := rfind_from c s 0 (-1).

(** The loop of [genericpath._splitext]: is there a code point other than
    the dot in [p[filenameIndex:dotIndex]]? *)
Definition has_name (p : str) (filenameIndex dotIndex : Z) : bool :=
  existsb (fun c => negb (c =? DOT)%N)
    (take (Z.to_nat (dotIndex - filenameIndex))
          (drop (Z.to_nat filenameIndex) p)).

(** [os.path.splitext] *)
Definition splitext (p : str) : str * str :=
  let sepIndex :=
    match altsep with
    | Some a => Z.max (rfind sep p) (rfind a p)
    | None => rfind sep p
    end in
  let dotIndex := rfind DOT p in
  if (sepIndex <? dotIndex)%Z && has_name p (sepIndex + 1) dotIndex
  then (take (Z.to_nat dotIndex) p, drop (Z.to_nat dotIndex) p)
  else (p, []).

Definition image_extensions : list str :=
  [lit ".png"; lit ".jpg"; lit ".jpeg"; lit ".bmp"; lit ".tiff"; lit ".gif"].

(** [_determine_file_type] *)
Definition _determine_file_type (file_path : str) : str :=
  let ext := (splitext file_path).2 in
  let ext := lower ext in
  if bool_decide (ext = lit ".pdf") then lit "pdf"
  else if bool_decide (ext ∈ image_extensions) then lit "image"
  else lit "unknown".

Record t := {
  ocr_model : OCRModel.t;
  ml_model : option MLEnhancementModel.t;
  nlp_processor : NLPProcessor.t
}.

(** [_handle_pdf] *)
Definition _handle_pdf (self : t) (file_path : str) (lang : option str)
  : io (str * Q) :=
  OCRModel.extract_text_from_pdf (ocr_model self) file_path lang.

(** [_handle_image] *)
Definition _handle_image (self : t) (file_path : str) (lang : option str)
  : io (str * Q) :=
  io_try
    (img ← io_lift (Image_open file_path);
     preprocessed ←
       io_lift (ImagePreprocessor.preprocess (inl img) ImagePreprocessor.auto);
     deskewed ← io_lift (ImagePreprocessor.deskew (inl preprocessed));
     OCRModel.extract_text_from_image (ocr_model self) deskewed lang)
    (mret (lit "Image processing failed", 0%Q)).

(** [self.file_handlers] *)
Definition file_handlers (self : t)
  : gmap str (str -> option str -> io (str * Q)) :=
  {[ lit "pdf" := _handle_pdf self; lit "image" := _handle_image self ]}.

(** [extract_text] *)
Definition extract_text (self : t) (file_path : str) (source_lang : option str)
    (enhance : bool) : io (str * Q) :=
  let file_type := _determine_file_type file_path in
  match file_handlers self !! file_type with
  | Some handler =>
      '(text, confidence) ← handler file_path source_lang;
      '(text, confidence) ←
        match enhance, ml_model self with
        | true, Some model =>
            _ ← io_tell (Enhance text confidence);
            mret (MLEnhancementModel.enhance_text model text confidence)
        | _, _ => mret (text, confidence)
        end;
      _ ← io_tell (Normalize text);
      let text := NLPProcessor.process_text (nlp_processor self) text in
      mret (text, confidence)
  | None => mret (lit "Unsupported file type", 0%Q)
  end.

End Service.
End TextExtractionService.

(* ===================================================================== *)
(** ** What the properties say *)
(* ===================================================================== *)

Module Described.

(** *** Reading with the matcher *)

(** The code point before the cursor once [w] has been read. *)
Definition prev_after (prev : option codepoint) (w : str) : option codepoint :=
  match last w with Some c => Some c | None => prev end.

(** [st'] is [st] after reading [w]. *)
Definition reads (w : str) (st st' : mstate) : Prop :=
  m_rest st = w ++ m_rest st'
  /\ m_pos st' = m_pos st + length w
  /\ m_prev st' = prev_after (m_prev st) w.

(** The two continuations of the loop of [re.sub] at a cursor outside a
    match: copy one code point, or emit the template and go on after the
    match. *)
Definition copy_one (r : regex) (t : list piece) (s : str) : str :=
  match s with
  | [] => []
  | c :: s' => c :: sub_from r t (Some c) s' 0
  end.

Definition resume (r : regex) (t : list piece) (prev : option codepoint)
    (s : str) (st : mstate) : str :=
  expand t (m_groups st)
    ++ sub_from r t (prev_after prev (take (m_pos st) s))
         (drop (m_pos st) s) 0.

(** Length of the longest prefix of [s] inside the class [p]. *)
Fixpoint run_length (p : codepoint -> bool) (s : str) : nat :=
  match s with
  | c :: s' => if p c then S (run_length p s') else 0
  | [] => 0
  end.

(** *** Paragraph fix-up *)

(** A text cut into its maximal runs of newlines and its other code
    points. *)
Inductive chunk :=
| Breaks (n : nat)
| Other (c : codepoint).

Fixpoint chunks (s : str) : list chunk :=
  match s with
  | [] => []
  | c :: s' =>
      if ch NL c
      then match chunks s' with
           | Breaks n :: t => Breaks (S n) :: t
           | t => Breaks 1 :: t
           end
      else Other c :: chunks s'
  end.

(** "A single newline not adjacent to another newline becomes one
    space." *)
Definition join_single (k : chunk) : str :=
  match k with
  | Breaks 1 => [SP]
  | Breaks n => repeat NL n
  | Other c => [c]
  end.

Definition join_lines (s : str) : str := flat_map join_single (chunks s).

(** "Any run of three or more consecutive newlines collapses to exactly
    two newlines." *)
Definition collapse_many (k : chunk) : str :=
  match k with
  | Breaks n => repeat NL (if 3 <=? n then 2 else n)
  | Other c => [c]
  end.

Definition collapse_breaks (s : str) : str :=
  flat_map collapse_many (chunks s).

(** The same rewrite of single newlines, read from left to right:
    [prev_nl] tells whether the code point before is a newline. *)
Fixpoint join_lines_from (prev_nl : bool) (s : str) : str :=
  match s with
  | [] => []
  | c :: s' =>
      (if ch NL c && negb prev_nl && negb (holds (ch NL) (head s'))
       then SP else c) :: join_lines_from (ch NL c) s'
  end.

(** A bullet marker comes next, after code points of the class [cls]
    only. *)
Fixpoint marker_ahead (cls : codepoint -> bool) (s : str) : bool :=
  match s with
  | [] => false
  | c :: s' => ch BULLET c || (cls c && marker_ahead cls s')
  end.

(** Stripping what leads to a bullet marker: from the code point after a
    newline on, code points of the class [cls] are dropped as long as a
    bullet marker still comes next.  [armed] tells whether the cursor
    follows a newline or a dropped code point. *)
Fixpoint strip_lead (cls : codepoint -> bool) (armed : bool) (s : str) : str :=
  match s with
  | [] => []
  | c :: s' =>
      if armed && cls c && marker_ahead cls s'
      then strip_lead cls true s'
      else c :: strip_lead cls (ch NL c) s'
  end.

(** How many code points [strip_lead] drops at an armed cursor. *)
Fixpoint lead_length (cls : codepoint -> bool) (s : str) : nat :=
  match s with
  | [] => 0
  | c :: s' =>
      if cls c && marker_ahead cls s' then S (lead_length cls s') else 0
  end.

(** The paragraph fix-up as the specification words it: the third rewrite
    strips leading whitespace before a bullet marker. *)
Definition fix_paragraphs_as_specified (s : str) : str :=
  strip_lead isspace false (collapse_breaks (join_lines s)).

(** The paragraph fix-up with the class of the pattern: whitespace,
    bullet markers and hyphens are stripped before a bullet marker. *)
Definition fix_paragraphs_as_written (s : str) : str :=
  strip_lead NLPProcessor.bullet_class false (collapse_breaks (join_lines s)).

(** *** Raster path *)

(** A word that is not empty and not whitespace only. *)
Definition nonblank (w : str) : bool := negb (forallb isspace w).

(** Recognised word tokens as the two columns of the backend. *)
Definition data_of (tokens : list (str * Q)) : ocr_data :=
  {| data_text := map fst tokens; data_conf := map snd tokens |}.

(** "Words with non-empty text and confidence different from -1." *)
Definition valid_token (tok : str * Q) : bool :=
  nonblank tok.1 && negb (Qeq_bool tok.2 (-1)).

(** "Join non-empty words with single spaces." *)
Definition raster_text (tokens : list (str * Q)) : str :=
  join [SP] (List.filter nonblank (map fst tokens)).

(** "Mean of the raw confidences of the valid words, divided by 100; 0.0
    if no valid words." *)
Definition raster_confidence (tokens : list (str * Q)) : Q :=
  match List.filter valid_token tokens with
  | [] => 0
  | valid => (OCRModel.mean (map snd valid) / 100)%Q
  end.

Section Pages.
Context `{Backend}.

(** *** PDF path *)

(** One page: "if a native text layer exists and is non-blank, use it
    verbatim with confidence fixed at 0.95; otherwise rasterize the page
    and use the raster path." *)
Definition page_result (self : OCRModel.t) (lang_code : option str)
    (page : pdf_page) : io (str * Q) :=
  layer ← io_lift (page_extract_text page);
  match layer with
  | Some text =>
      if nonblank text then mret (text, 0.95%Q)
      else img ← io_lift (page_to_image page);
           OCRModel.extract_text_from_image self (inl img) lang_code
  | None =>
      img ← io_lift (page_to_image page);
      OCRModel.extract_text_from_image self (inl img) lang_code
  end.

(** The computations of a list, one after the other. *)
Fixpoint io_sequence {A} (ms : list (io A)) : io (list A) :=
  match ms with
  | [] => mret []
  | m :: ms' => a ← m; rest ← io_sequence ms'; mret (a :: rest)
  end.


(** *** Deskew *)

(** A step of the [try] block of [deskew] raises. *)
Inductive raises_in_try (img_array gray : ndarray) : Prop :=
| raises_threshold :
    threshold_otsu_inv gray = None -> raises_in_try img_array gray
| raises_findContours binary :
    threshold_otsu_inv gray = Some binary ->
    findContours binary = None -> raises_in_try img_array gray
| raises_contourArea binary contours c :
    threshold_otsu_inv gray = Some binary ->
    findContours binary = Some contours ->
    In c contours -> contourArea c = None ->
    raises_in_try img_array gray
| raises_minAreaRect binary contours c area :
    threshold_otsu_inv gray = Some binary ->
    findContours binary = Some contours ->
    In c contours -> contourArea c = Some area -> (100 <= area)%Q ->
    minAreaRect_angle c = None ->
    raises_in_try img_array gray
| raises_shape angle :
    ImagePreprocessor.skew_angle gray = Some angle ->
    (length (shape img_array) < 2)%nat ->
    raises_in_try img_array gray
| raises_warpAffine angle h w dims :
    ImagePreprocessor.skew_angle gray = Some angle ->
    shape img_array = h :: w :: dims ->
    warpAffine_rotation img_array (w / 2, h / 2)%nat angle (w, h) = None ->
    raises_in_try img_array gray
| raises_fromarray angle h w dims rotated :
    ImagePreprocessor.skew_angle gray = Some angle ->
    shape img_array = h :: w :: dims ->
    warpAffine_rotation img_array (w / 2, h / 2)%nat angle (w, h)
    = Some rotated ->
    fromarray rotated = None ->
    raises_in_try img_array gray.

End Pages.
End Described.

Import Described.

(* ===================================================================== *)
(** ** A backend over records *)
(* ===================================================================== *)

(** Images are records of what the libraries would compute on them, so
    that the pipeline can be run on concrete inputs. *)
Module Toy.

Record toy_image := {
  ti_shape : list nat;
  ti_blur : option Q;
  ti_std : Q;
  ti_contours : option (list (option Q * option Q));
  ti_data : option ocr_data;
  ti_rotation : option Q
}.

Definition toy_page : Type := option (option str) * toy_image.

Definition rotated_by (img : toy_image) (angle : Q) : toy_image :=
  {| ti_shape := ti_shape img; ti_blur := ti_blur img; ti_std := ti_std img;
     ti_contours := ti_contours img; ti_data := ti_data img;
     ti_rotation := Some angle |}.

Definition backend (images : str -> option toy_image)
    (pdfs : str -> option (list toy_page)) : Backend := {|
  pil := toy_image;
  ndarray := toy_image;
  contour := option Q * option Q;
  pdf_page := toy_page;
  np_array := id;
  fromarray := Some;
  shape := ti_shape;
  std := ti_std;
  cvtColor_BGR2GRAY := Some;
  laplacian_var := ti_blur;
  convertScaleAbs := fun img _ _ => Some img;
  GaussianBlur_3x3 := Some;
  adaptiveThreshold_gaussian_11_2 := Some;
  fastNlMeansDenoising_10_7_21 := Some;
  filter2D_sharpen := Some;
  threshold_otsu := Some;
  threshold_otsu_inv := Some;
  findContours := ti_contours;
  contourArea := fst;
  minAreaRect_angle := snd;
  warpAffine_rotation := fun img _ angle _ => Some (rotated_by img angle);
  image_to_data := fun img _ => ti_data img;
  Image_open := images;
  pdfplumber_open := pdfs;
  page_extract_text := fst;
  page_to_image := fun page => Some (snd page)
|}.

Definition hello_tokens : list (str * Q) :=
  [(lit "Hello", 90%Q); (lit "", (-1)%Q); (lit "World", 80%Q)].

(** A page scan at the tier boundary, with one small contour. *)
Definition scan : toy_image := {|
  ti_shape := [40; 60]%nat;
  ti_blur := Some 100%Q;
  ti_std := 50%Q;
  ti_contours := Some [(Some 12%Q, Some 30%Q)];
  ti_data := Some (data_of hello_tokens);
  ti_rotation := None
|}.

(** The same scan when contour extraction fails. *)
Definition broken_scan : toy_image := {|
  ti_shape := [40; 60]%nat;
  ti_blur := Some 100%Q;
  ti_std := 50%Q;
  ti_contours := None;
  ti_data := Some (data_of hello_tokens);
  ti_rotation := None
|}.

Definition native_page : toy_page := (Some (Some (lit "Invoice 42")), scan).

Definition files (path : str) : option toy_image :=
  if bool_decide (path = lit "scan.png") then Some scan else None.

Definition documents (path : str) : option (list toy_page) :=
  if bool_decide (path = lit "doc.pdf") then Some [native_page; native_page]
  else None.

Definition world : Backend := backend files documents.

Definition model : MLEnhancementModel.t := {|
  MLEnhancementModel.initialized := true;
  MLEnhancementModel._apply_ml_corrections :=
    MLEnhancementModel.placeholder_corrections
|}.

Definition processor : NLPProcessor.t := {|
  NLPProcessor.enable_spell_check := true;
  NLPProcessor.enable_ner := true;
  NLPProcessor.nlp := None
|}.

Definition service : TextExtractionService.t := {|
  TextExtractionService.ocr_model := OCRModel.create;
  TextExtractionService.ml_model := Some model;
  TextExtractionService.nlp_processor := processor
|}.

(** "Items:", a blank line, then a bullet line written [- • first]. *)
Definition bullet_item : str :=
  lit "Items:" ++ [NL; NL; HYPHEN; SP; BULLET; SP] ++ lit "first".

End Toy.

(* ===================================================================== *)
(** ** The upload check and the translation layer *)
(* ===================================================================== *)

(** *** [utils/file_handler.py] *)

Module FileHandler.
Section Handler.
Context `{Unicode}.

(** The fields of the handler object. *)
Record t := {
  upload_folder : str;
  allowed_extensions : gset str
}.

Definition default_extensions : gset str :=
  {[ lit "png"; lit "jpg"; lit "jpeg"; lit "gif"; lit "pdf"; lit "tiff";
     lit "bmp" ]}.

(** The fields set by [__init__]: [allowed_extensions or {...}] takes the
    default for [None] and for an empty set. *)
Definition create (upload_folder : str) (allowed_extensions : option (gset str))
  : t :=
  {| upload_folder := upload_folder;
     allowed_extensions :=
       match allowed_extensions with
       | Some exts => if bool_decide (exts = ∅) then default_extensions else exts
       | None => default_extensions
       end |}.

(** [s.rsplit(c, 1)]: split at the last occurrence of [c], if any. *)
Definition rsplit1 (c : codepoint) (s : str) : list str :=
  let k := TextExtractionService.rfind c s in
  if (k <? 0)%Z then [s]
  else [take (Z.to_nat k) s; drop (Z.to_nat (k + 1)) s].

(** [allowed_file]; [None] stands for the [IndexError] of [...[1]]. *)
Definition allowed_file (self : t) (filename : str) : option bool :=
  if bool_decide (DOT ∈ filename)
  then ext ← rsplit1 DOT filename !! 1%nat;
       Some (bool_decide (lower ext ∈ allowed_extensions self))
  else Some false.

End Handler.
End FileHandler.

(** *** [models/translation_model.py] *)

Module TranslationModel.

(** The Google client: [detect_language(text)['language']] and
    [translate(text, target_language, source_language)['translatedText']];
    [None] when the call or the lookup raises. *)
Record google := {
  g_detect_language : str -> option str;
  g_translate : str -> str -> option str -> option str
}.

(** The DeepL client: [translate_text(text, source_lang, target_lang).text]. *)
Record deepl := {
  translate_text : str -> option str -> str -> option str
}.

(** The model object; a client is [None] when no key was given or its
    construction raised. *)
Record t := {
  google_client : option google;
  deepl_client : option deepl;
  language_mapping : gmap str (gmap str str)
}.

Definition services (g d : str) : gmap str str :=
  {[ lit "google" := g; lit "deepl" := d ]}.

(** [self.language_mapping] as [__init__] sets it. *)
Definition default_language_mapping : gmap str (gmap str str) :=
  list_to_map [
    (lit "en", services (lit "en") (lit "EN"));
    (lit "es", services (lit "es") (lit "ES"));
    (lit "fr", services (lit "fr") (lit "FR"));
    (lit "de", services (lit "de") (lit "DE"));
    (lit "it", services (lit "it") (lit "IT"));
    (lit "pt", services (lit "pt") (lit "PT"));
    (lit "nl", services (lit "nl") (lit "NL"));
    (lit "ru", services (lit "ru") (lit "RU"));
    (lit "zh", services (lit "zh") (lit "ZH"));
    (lit "ja", services (lit "ja") (lit "JA"))
  ].

Section Model.

(** [langdetect.detect]; [None] when it raises. *)
Variable detect : str -> option str.

(** [not text or not text.strip()] *)
Definition blank (text : str) : bool :=
  negb (truthy text) || negb (truthy (strip text)).

(** [detect_language] *)
Definition detect_language (self : t) (text : str) : str :=
  if blank text then lit "en"
  else
    match
      match google_client self with
      | Some client => g_detect_language client text
      | None => detect text
      end
    with
    | Some language => language
    | None => lit "en"                  (* except: default to English *)
    end.

(** [translate] *)
Definition translate (self : t) (text source_lang target_lang : str) : str :=
  if blank text then text
  else
    let source_lang :=
      if bool_decide (source_lang = lit "auto")
      then detect_language self text else source_lang in
    if bool_decide (source_lang = target_lang) then text
    else
      let google_or_original :=
        match google_client self with
        | Some client =>
            match g_translate client text target_lang
                    (if bool_decide (source_lang = lit "auto")
                     then None else Some source_lang) with
            | Some translated => translated
            | None => text                (* except: error logged *)
            end
        | None => text
        end in
      match deepl_client self with
      | Some client =>
          let deepl_source :=
            if bool_decide (source_lang = lit "auto") then None
            else language_mapping self !! source_lang ≫= (.!! lit "deepl") in
          let deepl_target :=
            language_mapping self !! target_lang ≫= (.!! lit "deepl") in
          match deepl_target with
          | Some target =>
              if truthy target
              then match translate_text client text deepl_source target with
                   | Some translated => translated
                   | None => google_or_original   (* except: fall through *)
                   end
              else google_or_original
          | None => google_or_original
          end
      | None => google_or_original
      end.

End Model.
End TranslationModel.

(** *** [services/translation_service.py] *)

Module TranslationService.
Section Service.
Variable detect : str -> option str.

Record t := { translation_model : TranslationModel.t }.

(** [detect_language] *)
Definition detect_language (self : t) (text : str) : str :=
  TranslationModel.detect_language detect (translation_model self) text.

(** [translate] *)
Definition translate (self : t) (text source_lang target_lang : str) : str :=
  if negb (truthy text) || negb (truthy (strip text)) then text
  else
    let source_lang :=
      if bool_decide (source_lang = lit "auto")
      then detect_language self text else source_lang in
    if bool_decide (source_lang = target_lang) then text
    else TranslationModel.translate detect (translation_model self)
           text source_lang target_lang.

End Service.
End TranslationService.

(* ===================================================================== *)
(** ** Notions for the further properties *)
(* ===================================================================== *)

Module Observed.

(** A newline read as a space. *)
Definition nl_to_space (c : codepoint) : codepoint :=
  if ch NL c then SP else c.

(** No two whitespace code points next to each other. *)
Fixpoint single_spaced (s : str) : bool :=
  match s with
  | c :: s' => negb (isspace c && holds isspace (head s')) && single_spaced s'
  | [] => true
  end.

(** Runs of two or more whitespace code points replaced by one space,
    read from left to right: [in_run] tells whether the cursor is inside a
    run that has been replaced. *)
Fixpoint squeeze_from (in_run : bool) (s : str) : str :=
  match s with
  | [] => []
  | c :: s' =>
      if isspace c
      then if in_run then squeeze_from true s'
           else if holds isspace (head s') then SP :: squeeze_from true s'
           else c :: squeeze_from false s'
      else c :: squeeze_from false s'
  end.

(** A space put between a lowercase letter and the uppercase letter that
    follows it. *)
Fixpoint split_camel (s : str) : str :=
  match s with
  | [] => []
  | c :: s' =>
      c :: (if lower_az c && holds upper_AZ (head s')
            then SP :: split_camel s' else split_camel s')
  end.

(** A raw confidence of the recognition backend: a value in [0,100], or
    the sentinel -1. *)
Definition raw_score (c : Q) : Prop := (c == -1 \/ 0 <= c <= 100)%Q.

(** The backend only reports raw confidences. *)
Definition well_scored `{Backend} : Prop :=
  forall img lang data,
    image_to_data img lang = Some data -> Forall raw_score (data_conf data).

Definition in_unit (c : Q) : Prop := (0 <= c <= 1)%Q.

(** The answer of [_handle_image] when its [try] block raised. *)
Definition failed_image : str * Q := (lit "Image processing failed", 0%Q).

Section Handler.
Context `{Unicode} `{Backend}.

(** What [extract_text] does once the handler has returned. *)
Definition after_handler (self : TextExtractionService.t) (enhance : bool)
    (r : str * Q) : io (str * Q) :=
  let '(text, confidence) := r in
  '(text, confidence) ←
    match enhance, TextExtractionService.ml_model self with
    | true, Some model =>
        _ ← io_tell (Enhance text confidence);
        mret (MLEnhancementModel.enhance_text model text confidence)
    | _, _ => mret (text, confidence)
    end;
  _ ← io_tell (Normalize text);
  let text :=
    NLPProcessor.process_text (TextExtractionService.nlp_processor self) text in
  mret (text, confidence).

End Handler.
End Observed.

Import Observed.

(** Closes goals [isspace c = false] for a code point in a known range. *)
Ltac not_space :=
  unfold isspace, in_range;
  repeat match goal with
         | |- (_ || _)%bool = false => apply orb_false_intro
         | |- (_ && _)%bool = false =>
             apply andb_false_iff;
             first [left; apply N.leb_gt; lia | right; apply N.leb_gt; lia]
         | |- (_ =? _)%N = false => apply N.eqb_neq; lia
         end.

(* ===================================================================== *)
(** ** Further sample inputs *)
(* ===================================================================== *)

Module Samples.

(** The test behind [raw_score]. *)
Definition raw_scoreb (c : Q) : bool :=
  Qeq_bool c (-1) || (Qle_bool 0 c && Qle_bool c 100).

(** A recognizer that raises on a score outside the range of raw
    confidences. *)
Definition checked_data (img : Toy.toy_image) (lang : str) : option ocr_data :=
  match Toy.ti_data img with
  | Some data => if forallb raw_scoreb (data_conf data) then Some data else None
  | None => None
  end.

(** The documents of the toy backend, and one without pages. *)
Definition documents (path : str) : option (list Toy.toy_page) :=
  if bool_decide (path = lit "empty.pdf") then Some [] else Toy.documents path.

(** The toy backend with the checked recognizer and these documents. *)
Definition checked_world : Backend := {|
  pil := Toy.toy_image;
  ndarray := Toy.toy_image;
  contour := option Q * option Q;
  pdf_page := Toy.toy_page;
  np_array := id;
  fromarray := Some;
  shape := Toy.ti_shape;
  std := Toy.ti_std;
  cvtColor_BGR2GRAY := Some;
  laplacian_var := Toy.ti_blur;
  convertScaleAbs := fun img _ _ => Some img;
  GaussianBlur_3x3 := Some;
  adaptiveThreshold_gaussian_11_2 := Some;
  fastNlMeansDenoising_10_7_21 := Some;
  filter2D_sharpen := Some;
  threshold_otsu := Some;
  threshold_otsu_inv := Some;
  findContours := Toy.ti_contours;
  contourArea := fst;
  minAreaRect_angle := snd;
  warpAffine_rotation := fun img _ angle _ => Some (Toy.rotated_by img angle);
  image_to_data := checked_data;
  Image_open := Toy.files;
  pdfplumber_open := documents;
  page_extract_text := fst;
  page_to_image := fun page => Some (snd page)
|}.

(** A scan with three large contours, tilted by -80, -10 and -30
    degrees. *)
Definition tilted_scan : Toy.toy_image := {|
  Toy.ti_shape := [40; 60]%nat;
  Toy.ti_blur := Some 100%Q;
  Toy.ti_std := 50%Q;
  Toy.ti_contours :=
    Some [(Some 400%Q, Some (-80)%Q); (Some 900%Q, Some (-10)%Q);
          (Some 500%Q, Some (-30)%Q)];
  Toy.ti_data := Some (data_of Toy.hello_tokens);
  Toy.ti_rotation := None
|}.

(** A Google client that is down and a DeepL client that knows one word. *)
Definition google_down : TranslationModel.google := {|
  TranslationModel.g_detect_language := fun _ => None;
  TranslationModel.g_translate := fun _ _ _ => None
|}.

Definition deepl_hola : TranslationModel.deepl := {|
  TranslationModel.translate_text := fun text _ target =>
    if bool_decide (text = lit "hello") && bool_decide (target = lit "ES")
    then Some (lit "hola") else None
|}.

Definition translator : TranslationModel.t := {|
  TranslationModel.google_client := Some google_down;
  TranslationModel.deepl_client := Some deepl_hola;
  TranslationModel.language_mapping := TranslationModel.default_language_mapping
|}.

Definition no_langdetect (text : str) : option str := None.

End Samples.

(* ===================================================================== *)
(** ** The corrector on binary64 confidences *)
(* ===================================================================== *)

(** The confidence of [enhance_text] as the Python float it is: the
    comparison with 0.85 and the two products are those of IEEE 754
    binary64, rounded to nearest even. *)
Module Binary64.
Section ML.
Context `{Unicode}.

(** [min(a, b)] of Python on two floats: [b] when [b < a], else [a]. *)
Definition py_min (a b : float) : float :=
  if (b <? a)%float then b else a.

(** [enhance_text] (models/ml_enchancement.py) *)
Definition enhance_text (self : MLEnhancementModel.t) (text : str)
    (confidence : float) : str * float :=
  if negb (truthy text) || negb (truthy (strip text)) then (text, confidence)
  else
    let enhanced_text := MLEnhancementModel._apply_rule_based_corrections text in
    if MLEnhancementModel.initialized self && (confidence <? 0.85)%float
    then
      match MLEnhancementModel._apply_ml_corrections self enhanced_text with
      | Some out => (out, py_min 1 (confidence * 1.15)%float)
      | None => (enhanced_text, confidence)
      end
    else (enhanced_text, py_min 1 (confidence * 1.05)%float).

End ML.
End Binary64.

(* ===================================================================== *)
(** ** What the properties say of a document *)
(* ===================================================================== *)

Module Document.




End Document.

Module Mixed.

(** A scanned sheet with one word, recognised with confidence 50. *)
Definition total_scan : Toy.toy_image := {|
  Toy.ti_shape := [40; 60]%nat;
  Toy.ti_blur := Some 100%Q;
  Toy.ti_std := 50%Q;
  Toy.ti_contours := Some [];
  Toy.ti_data := Some (data_of [(lit "Total", 50%Q)]);
  Toy.ti_rotation := None
|}.

(** A page without text layer. *)
Definition scanned_page : Toy.toy_page := (Some None, total_scan).

(** A document of a native page followed by a scanned one. *)
Definition documents (path : str) : option (list Toy.toy_page) :=
  if bool_decide (path = lit "mixed.pdf")
  then Some [Toy.native_page; scanned_page] else None.

Definition world : Backend := Toy.backend Toy.files documents.

End Mixed.

(* ===================================================================== *)
(** ** Facts about strings *)
(* ===================================================================== *)

Section StrFacts.

(** [lstrip] leaves nothing exactly when every code point is whitespace. *)
Lemma lstrip_nil (s : str) :
  lstrip s = [] <-> forallb isspace s = true.
Proof.
  induction s as [|c s IH]; simpl; [tauto|].
  destruct (isspace c); simpl; [exact IH|].
  split; discriminate.
Qed.

Lemma lstrip_all_space (s : str) :
  forallb isspace (lstrip s) = true -> forallb isspace s = true.
Proof.
  induction s as [|c s IH]; simpl; [tauto|].
  destruct (isspace c) eqn:E; simpl; [exact IH|].
  rewrite E. discriminate.
Qed.

Lemma forallb_rev {A} (f : A -> bool) (l : list A) :
  forallb f (rev l) = forallb f l.
Proof.
  induction l as [|a l IH]; simpl; [reflexivity|].
  rewrite forallb_app, IH. simpl. rewrite andb_true_r, andb_comm. reflexivity.
Qed.

(** [s.strip()] is empty exactly when [s] is empty or whitespace only. *)
Lemma strip_blank (s : str) :
  truthy (strip s) = false <-> forallb isspace s = true.
Proof.
  unfold strip, rstrip. split.
  - intros E.
    destruct (rev (lstrip (rev (lstrip s)))) as [|c u] eqn:R; [|discriminate].
    apply (f_equal (@rev _)) in R. rewrite rev_involutive in R. simpl in R.
    apply lstrip_nil in R. rewrite forallb_rev in R.
    apply lstrip_all_space, R.
  - intros E. apply lstrip_nil in E. rewrite E. reflexivity.
Qed.

(** The guard of [enhance_text] and [process_text]. *)
Lemma blank_guard (s : str) :
  negb (truthy s) || negb (truthy (strip s)) = true
  <-> forallb isspace s = true.
Proof.
  rewrite <- strip_blank.
  destruct s as [|c s]; simpl; [split; reflexivity|].
  destruct (truthy (strip (c :: s))); simpl; split; congruence.
Qed.

End StrFacts.

(* ===================================================================== *)
(** ** Facts about the matcher and the loop of [re.sub] *)
(* ===================================================================== *)

Section ReFacts.

Lemma prev_after_nil prev : prev_after prev [] = prev.
Proof. reflexivity. Qed.

Lemma prev_after_cons prev c w :
  prev_after prev (c :: w) = prev_after (Some c) w.
Proof.
  unfold prev_after. destruct w as [|d w]; [reflexivity|].
  change (last (c :: d :: w)) with (last (d :: w)).
  destruct (last (d :: w)) eqn:E; [reflexivity|].
  apply last_None in E. discriminate.
Qed.

Lemma prev_after_app prev u v :
  prev_after prev (u ++ v) = prev_after (prev_after prev u) v.
Proof.
  revert prev. induction u as [|c u IH]; intros prev; simpl; [reflexivity|].
  rewrite !prev_after_cons. apply IH.
Qed.

Lemma reads_refl st : reads [] st st.
Proof. unfold reads. simpl. rewrite prev_after_nil. auto with arith. Qed.

Lemma reads_trans u v st1 st2 st3 :
  reads u st1 st2 -> reads v st2 st3 -> reads (u ++ v) st1 st3.
Proof.
  intros (R1 & P1 & V1) (R2 & P2 & V2). unfold reads.
  rewrite R1, R2, P2, P1, V2, V1, length_app, prev_after_app, <- app_assoc.
  auto with arith.
Qed.

(** Every alternative of a greedy repetition has read at least [lo] code
    points of the class and has left the groups alone. *)
Lemma greedy_reads p lo prev n s g st' :
  In st' (greedy p lo prev n s g) ->
  exists w, reads w (MState prev n s g) st'
            /\ m_groups st' = g /\ forallb p w = true /\ lo <= length w.
Proof.
  revert lo prev n. induction s as [|c s IH]; intros lo prev n Hin.
  - simpl in Hin. destruct lo; [|contradiction].
    destruct Hin as [<-|[]]. exists []. split; [apply reads_refl|].
    simpl; auto.
  - simpl in Hin.
    assert (Hstop : In st' (match lo with
                            | 0 => [MState prev n (c :: s) g]
                            | S _ => []
                            end) ->
            exists w, reads w (MState prev n (c :: s) g) st'
                      /\ m_groups st' = g /\ forallb p w = true
                      /\ lo <= length w).
    { destruct lo; [|contradiction]. intros [<-|[]].
      exists []. split; [apply reads_refl|]. simpl; auto. }
    destruct (p c) eqn:Pc; [|auto].
    apply in_app_or in Hin. destruct Hin as [Hin|Hin]; [|auto].
    apply IH in Hin. destruct Hin as (w & (R & P & V) & G & F & L).
    simpl in R, P, V. exists (c :: w). unfold reads. simpl.
    rewrite R, P, V, prev_after_cons, Pc, F. repeat split; auto; lia.
Qed.

(** Every alternative of the matcher has read a prefix of the input. *)
Lemma run_reads r st st' :
  In st' (run r st) -> exists w, reads w st st'.
Proof.
  revert st st'. induction r as [p|lo p|i r IH|r1 IH1 r2 IH2|want p|want p];
    intros st st' Hin; simpl in Hin.
  - destruct st as [prev n s g]; simpl in Hin.
    destruct s as [|c s]; [contradiction|].
    destruct (p c); [|contradiction]. destruct Hin as [<-|[]].
    exists [c]. unfold reads. simpl. split; [reflexivity|]. split; [lia|reflexivity].
  - destruct st as [prev n s g]. apply greedy_reads in Hin.
    destruct Hin as (w & R & _). eauto.
  - apply in_map_iff in Hin. destruct Hin as (st1 & <- & Hin).
    apply IH in Hin. destruct Hin as (w & R). exists w. exact R.
  - apply in_flat_map in Hin. destruct Hin as (st1 & H1 & H2).
    apply IH1 in H1. apply IH2 in H2. destruct H1 as (u & Ru), H2 as (v & Rv).
    exists (u ++ v). eapply reads_trans; eauto.
  - destruct (Bool.eqb _ _); [|contradiction]. destruct Hin as [<-|[]].
    exists []. apply reads_refl.
  - destruct (Bool.eqb _ _); [|contradiction]. destruct Hin as [<-|[]].
    exists []. apply reads_refl.
Qed.

Lemma match_here_In r adv prev s st :
  match_here r adv prev s = Some st ->
  In st (run r (MState prev 0 s ∅)) /\ (adv = true -> 0 < m_pos st).
Proof.
  unfold match_here. intros E.
  assert (Hin : In st (List.filter
            (fun st => negb adv || (0 <? m_pos st))%nat
            (run r (MState prev 0 s ∅)))).
  { destruct (List.filter _ _) as [|a l]; [discriminate|].
    simpl in E. injection E as ->. left; reflexivity. }
  apply filter_In in Hin. destruct Hin as [Hin Hc]. split; [exact Hin|].
  intros ->. simpl in Hc. apply Nat.ltb_lt in Hc. exact Hc.
Qed.

(** A match at the cursor ends inside the input. *)
Lemma match_here_reads r adv prev s st :
  match_here r adv prev s = Some st ->
  m_rest st = drop (m_pos st) s /\ m_pos st <= length s
  /\ m_prev st = prev_after prev (take (m_pos st) s).
Proof.
  intros E. apply match_here_In in E. destruct E as [Hin _].
  apply run_reads in Hin. destruct Hin as (w & R & P & V). simpl in R, P, V.
  subst s. rewrite P, length_app.
  rewrite drop_app_length, take_app_length. split; [reflexivity|]. split; [lia|exact V].
Qed.

(** Passing over the [k] code points of a match is dropping them. *)
Lemma sub_from_skip r t s : forall prev k,
  k <= length s ->
  sub_from r t prev s k
  = sub_from r t (prev_after prev (take k s)) (drop k s) 0.
Proof.
  induction s as [|c s IH]; intros prev k Hk.
  - simpl in Hk. assert (k = 0) by lia. subst k. reflexivity.
  - destruct k as [|k]; [reflexivity|].
    simpl in Hk. simpl sub_from. rewrite IH by lia.
    simpl take. rewrite prev_after_cons. reflexivity.
Qed.

(** What the loop does at a cursor that is not inside a match. *)
Lemma sub_from_step r t prev s :
  sub_from r t prev s 0 =
  match match_here r false prev s with
  | None => copy_one r t s
  | Some st =>
      match m_pos st with
      | S _ => resume r t prev s st
      | O =>
          expand t (m_groups st) ++
          match match_here r true prev s with
          | Some st2 => resume r t prev s st2
          | None => copy_one r t s
          end
      end
  end.
Proof.
  destruct s as [|c s].
  - simpl sub_from. destruct (match_here r false prev []) as [st|] eqn:E;
      [|reflexivity].
    pose proof (match_here_reads _ _ _ _ _ E) as (_ & L & _). simpl in L.
    assert (P0 : m_pos st = 0) by lia. rewrite P0.
    destruct (match_here r true prev []) as [st2|] eqn:E2.
    + pose proof (match_here_reads _ _ _ _ _ E2) as (_ & L2 & _).
      apply match_here_In in E2. destruct E2 as [_ E2]. specialize (E2 eq_refl).
      simpl in L2. lia.
    + simpl. rewrite app_nil_r. reflexivity.
  - simpl sub_from. destruct (match_here r false prev (c :: s)) as [st|] eqn:E;
      [|reflexivity].
    pose proof (match_here_reads _ _ _ _ _ E) as (_ & L & _). simpl in L.
    destruct (m_pos st) as [|k] eqn:P.
    + destruct (match_here r true prev (c :: s)) as [st2|] eqn:E2;
        [|reflexivity].
      pose proof (match_here_reads _ _ _ _ _ E2) as (_ & L2 & _).
      apply match_here_In in E2. destruct E2 as [_ E2]. specialize (E2 eq_refl).
      simpl in L2. unfold resume.
      destruct (m_pos st2) as [|k2]; [lia|]. simpl pred.
      rewrite sub_from_skip by lia. simpl take. simpl drop.
      rewrite prev_after_cons. reflexivity.
    + unfold resume. rewrite P. rewrite sub_from_skip by lia.
      simpl take. simpl drop. rewrite prev_after_cons. reflexivity.
Qed.


(** A pass whose template rebuilds the matched text changes nothing. *)
Lemma sub_from_identity r t :
  (forall adv prev s st,
     match_here r adv prev s = Some st ->
     expand t (m_groups st) = take (m_pos st) s) ->
  forall s prev k, sub_from r t prev s k = drop k s.
Proof.
  intros Hsame. induction s as [|c s IH]; intros prev k.
  - simpl. rewrite drop_nil.
    destruct (match_here r false prev []) as [st|] eqn:E; [|reflexivity].
    rewrite (Hsame _ _ _ _ E). apply take_nil.
  - destruct k as [|k]; simpl sub_from; [|apply IH].
    destruct (match_here r false prev (c :: s)) as [st|] eqn:E.
    + rewrite (Hsame _ _ _ _ E).
      destruct (m_pos st) as [|j].
      * simpl app.
        destruct (match_here r true prev (c :: s)) as [st2|] eqn:E2.
        -- rewrite (Hsame _ _ _ _ E2).
           apply match_here_In in E2. destruct E2 as [_ E2].
           specialize (E2 eq_refl).
           destruct (m_pos st2) as [|j2]; [lia|].
           simpl pred. rewrite IH. simpl. f_equal. apply take_drop.
        -- rewrite IH. reflexivity.
      * rewrite IH. simpl. f_equal. apply take_drop.
    + rewrite IH. reflexivity.
Qed.

(** The template of the decimal pass rebuilds what the pattern matched. *)
Lemma decimal_match_same `{Unicode} adv prev s st :
  match_here
    (Grp 1 (Rep 1 isdecimal) ⋅ Cls (ch DOT) ⋅ Grp 2 (Rep 1 isdecimal))%re
    adv prev s = Some st ->
  expand [Ref 1; Lit DOT; Ref 2] (m_groups st) = take (m_pos st) s.
Proof.
  intros E. apply match_here_In in E. destruct E as [Hin _].
  simpl in Hin.
  apply in_flat_map in Hin. destruct Hin as (st2 & Hin2 & Hin).
  apply in_flat_map in Hin2. destruct Hin2 as (st1 & Hin1 & Hin2).
  apply in_map_iff in Hin1. destruct Hin1 as (a & <- & Ha).
  apply greedy_reads in Ha.
  destruct Ha as (w1 & (Ra & Pa & _) & Ga & _). simpl in Ra, Pa, Hin2.
  destruct (m_rest a) as [|c s2] eqn:Rest; [contradiction|].
  destruct (ch DOT c) eqn:Dc; [|contradiction].
  destruct Hin2 as [<-|[]]. simpl in Hin.
  apply in_map_iff in Hin. destruct Hin as (b & <- & Hb).
  apply greedy_reads in Hb.
  destruct Hb as (w2 & (Rb & Pb & _) & Gb & _). simpl in Rb, Pb, Gb.
  apply N.eqb_eq in Dc. subst c s s2.
  simpl. rewrite Gb, Ga, Pb, Pa, Nat.sub_0_r.
  rewrite lookup_insert_ne by discriminate.
  rewrite !lookup_insert_eq. simpl.
  rewrite app_nil_r.
  replace (length w1 + length w2 - length w1) with (length w2) by lia.
  rewrite (take_app_length w1), (take_app_length w2).
  replace (S (length w1 + length w2))
    with (length (w1 ++ DOT :: w2)) by (rewrite length_app; simpl; lia).
  change (DOT :: w2 ++ m_rest b) with ((DOT :: w2) ++ m_rest b).
  rewrite app_assoc, (take_app_length (w1 ++ DOT :: w2)). reflexivity.
Qed.


(** *** The first pattern of [_fix_paragraphs] *)

Lemma single_break_here adv prev s :
  match_here NLPProcessor.single_break adv prev s =
  match s with
  | c :: s' =>
      if ch NL c && negb (holds (ch NL) prev) && negb (holds (ch NL) (head s'))
      then Some (MState (Some c) 1 s' ∅) else None
  | [] => None
  end.
Proof.
  unfold match_here, NLPProcessor.single_break. simpl.
  destruct (holds (ch NL) prev); simpl.
  - destruct s as [|c s]; [reflexivity|]. rewrite andb_false_r. reflexivity.
  - destruct s as [|c s]; [reflexivity|]. simpl.
    destruct (ch NL c); simpl; [|reflexivity].
    destruct (holds (ch NL) (head s)); simpl; [reflexivity|].
    rewrite orb_true_r. reflexivity.
Qed.

(** The loop with the first pattern is the left-to-right rewrite. *)
Lemma sub_single_break s : forall prev,
  sub_from NLPProcessor.single_break [Lit SP] prev s 0
  = join_lines_from (holds (ch NL) prev) s.
Proof.
  induction s as [|c s IH]; intros prev.
  - rewrite sub_from_step, single_break_here. reflexivity.
  - rewrite sub_from_step, single_break_here. simpl join_lines_from.
    rewrite (andb_comm (ch NL c) (negb (holds (ch NL) prev))).
    rewrite <- (andb_assoc (negb _) (ch NL c)), (andb_comm (negb (holds (ch NL) prev))).
    rewrite <- (andb_assoc (ch NL c)), (andb_comm (negb (holds (ch NL) (head s)))), andb_assoc.
    destruct (ch NL c && negb (holds (ch NL) prev)
              && negb (holds (ch NL) (head s))) eqn:E.
    + simpl. unfold resume. simpl. rewrite prev_after_cons, prev_after_nil.
      rewrite IH. reflexivity.
    + simpl. rewrite IH. reflexivity.
Qed.

(** The first chunk is a run of newlines exactly when the text starts
    with a newline. *)
Lemma chunks_head s :
  match chunks s with
  | Breaks n :: _ => 1 <= n /\ holds (ch NL) (head s) = true
  | _ => holds (ch NL) (head s) = false
  end.
Proof.
  destruct s as [|c s]; simpl; [reflexivity|].
  destruct (ch NL c) eqn:E; [|reflexivity].
  destruct (chunks s) as [|[n|d] t]; split; auto; lia.
Qed.

(** The left-to-right rewrite, run by run. *)
Lemma join_lines_from_chunks s :
  join_lines_from false s = join_lines s
  /\ join_lines_from true s =
     match chunks s with
     | Breaks n :: t => repeat NL n ++ flat_map join_single t
     | t => flat_map join_single t
     end.
Proof.
  unfold join_lines. induction s as [|c s [IH1 IH2]]; [split; reflexivity|].
  simpl. pose proof (chunks_head s) as Hh.
  destruct (ch NL c) eqn:E.
  - apply N.eqb_eq in E. subst c. simpl.
    destruct (chunks s) as [|[n|d] t].
    + rewrite Hh, IH2. split; reflexivity.
    + destruct Hh as [Hn Hh]. rewrite Hh, IH2. simpl.
      destruct n as [|n]; [lia|]. split; reflexivity.
    + rewrite Hh, IH2. split; reflexivity.
  - simpl. rewrite IH1. split; reflexivity.
Qed.

Lemma sub_single_break_spec s :
  Re.sub NLPProcessor.single_break [Lit SP] s = join_lines s.
Proof.
  unfold Re.sub. rewrite sub_single_break. apply join_lines_from_chunks.
Qed.


(** *** Greedy repetition takes the whole run *)

Lemma greedy_short p s : forall lo prev n g,
  run_length p s < lo -> greedy p lo prev n s g = [].
Proof.
  induction s as [|c s IH]; intros lo prev n g Hlt; simpl in *.
  - destruct lo; [lia|reflexivity].
  - destruct (p c).
    + rewrite IH by lia. destruct lo; [lia|reflexivity].
    + destruct lo; [lia|reflexivity].
Qed.

Lemma greedy_long p s : forall lo prev n g,
  lo <= run_length p s ->
  exists tl,
    greedy p lo prev n s g =
    MState (prev_after prev (take (run_length p s) s)) (n + run_length p s)
           (drop (run_length p s) s) g :: tl.
Proof.
  induction s as [|c s IH]; intros lo prev n g Hle; simpl in *.
  - assert (lo = 0) by lia. subst lo. rewrite Nat.add_0_r. eauto.
  - destruct (p c).
    + destruct (IH (pred lo) (Some c) (S n) g) as [tl E]; [lia|].
      rewrite E. simpl. rewrite prev_after_cons.
      replace (n + S (run_length p s)) with (S (n + run_length p s)) by lia.
      eauto.
    + assert (lo = 0) by lia. subst lo. rewrite Nat.add_0_r. eauto.
Qed.

Lemma run_length_le p s : run_length p s <= length s.
Proof.
  induction s as [|c s IH]; simpl; [lia|]. destruct (p c); simpl; lia.
Qed.

(** *** The second pattern of [_fix_paragraphs] *)

Lemma many_breaks_here adv prev s :
  match_here NLPProcessor.many_breaks adv prev s =
  let k := run_length (ch NL) s in
  if 3 <=? k
  then Some (MState (prev_after prev (take k s)) k (drop k s) ∅)
  else None.
Proof.
  unfold match_here, NLPProcessor.many_breaks. cbv zeta. simpl run.
  destruct (Nat.leb_spec 3 (run_length (ch NL) s)) as [Hle|Hlt].
  - destruct (greedy_long (ch NL) s 3 prev 0 ∅ Hle) as [tl ->].
    simpl. destruct (run_length (ch NL) s) as [|k]; [lia|].
    simpl. rewrite orb_true_r. reflexivity.
  - rewrite greedy_short by exact Hlt. reflexivity.
Qed.

(** The first chunk is the whole leading run of newlines. *)
Lemma chunks_run s :
  match run_length (ch NL) s with
  | 0 => match chunks s with Breaks _ :: _ => False | _ => True end
  | S k => chunks s = Breaks (S k) :: chunks (drop (S k) s)
  end.
Proof.
  induction s as [|c s IH]; simpl; [exact I|].
  destruct (ch NL c); [|exact I].
  destruct (run_length (ch NL) s) as [|k].
  - rewrite drop_0. destruct (chunks s) as [|[n|d] t]; [reflexivity|contradiction|reflexivity].
  - rewrite IH. reflexivity.
Qed.

(** The loop with the second pattern, by induction on a bound [n] of the
    length: a match jumps over a whole run. *)
Lemma sub_many_breaks n : forall s prev,
  length s <= n ->
  sub_from NLPProcessor.many_breaks [Lit NL; Lit NL] prev s 0
  = collapse_breaks s.
Proof.
  unfold collapse_breaks.
  induction n as [|n IH]; intros s prev Hlen.
  - destruct s; [|simpl in Hlen; lia].
    rewrite sub_from_step, many_breaks_here. reflexivity.
  - rewrite sub_from_step, many_breaks_here. cbv zeta.
    pose proof (chunks_run s) as Hc.
    pose proof (run_length_le (ch NL) s) as Hk.
    destruct (Nat.leb_spec 3 (run_length (ch NL) s)) as [Hle|Hlt].
    + destruct (run_length (ch NL) s) as [|k] eqn:Ek; [lia|].
      unfold resume. cbn [m_pos m_groups]. rewrite Hc.
      rewrite IH by (rewrite length_drop; lia).
      simpl. destruct k as [|[|k]]; [lia|lia|]. reflexivity.
    + destruct s as [|c s]; [reflexivity|].
      simpl copy_one. rewrite IH by (simpl in Hlen; lia).
      simpl in Hc, Hlt |- *.
      destruct (ch NL c) eqn:E; [|reflexivity].
      apply N.eqb_eq in E. subst c.
      pose proof (chunks_run s) as Hs.
      destruct (run_length (ch NL) s) as [|k] eqn:Ek.
      * destruct (chunks s) as [|[m|d] t]; [reflexivity|contradiction|reflexivity].
      * rewrite Hs. simpl.
        destruct k as [|k]; [reflexivity|lia].
Qed.

Lemma sub_many_breaks_spec s :
  Re.sub NLPProcessor.many_breaks [Lit NL; Lit NL] s = collapse_breaks s.
Proof. apply (sub_many_breaks (length s)). lia. Qed.


(** *** The third pattern of [_fix_paragraphs] *)

Section Lead.
Variable cls : codepoint -> bool.
Hypothesis bullet_in_cls : forall c, ch BULLET c = true -> cls c = true.

(** Without a bullet marker ahead no cut of the run passes the
    look-ahead. *)
Lemma ahead_none prev s : forall n g,
  marker_ahead cls s = false ->
  flat_map (run (Ahead true (ch BULLET))) (greedy cls 0 prev n s g) = [].
Proof using Type.
  revert prev. induction s as [|c s IH]; intros prev n g Hm; simpl in *.
  - reflexivity.
  - apply orb_false_iff in Hm. destruct Hm as [Hb Hm].
    destruct (cls c) eqn:Hc; simpl in *.
    + rewrite flat_map_app, IH by exact Hm. simpl. rewrite Hb. reflexivity.
    + rewrite Hb. reflexivity.
Qed.

(** With a bullet marker ahead the first cut that passes the look-ahead
    is the one before the last marker of the run. *)
Lemma ahead_some prev s : forall n g,
  marker_ahead cls s = true ->
  exists tl,
    flat_map (run (Ahead true (ch BULLET))) (greedy cls 0 prev n s g) =
    MState (prev_after prev (take (lead_length cls s) s))
           (n + lead_length cls s) (drop (lead_length cls s) s) g :: tl.
Proof using bullet_in_cls.
  revert prev. induction s as [|c s IH]; intros prev n g Hm; simpl in *.
  - discriminate.
  - destruct (cls c && marker_ahead cls s) eqn:E.
    + apply andb_true_iff in E. destruct E as [Hc Hs]. rewrite Hc.
      rewrite flat_map_app.
      destruct (IH (Some c) (S n) g Hs) as [tl ->].
      simpl. rewrite prev_after_cons.
      replace (n + S (lead_length cls s)) with (S (n + lead_length cls s))
        by lia.
      eauto.
    + rewrite orb_false_r in Hm. rewrite (bullet_in_cls _ Hm) in E |- *.
      simpl in E. rewrite flat_map_app, ahead_none by exact E.
      simpl. rewrite Hm. simpl. rewrite Nat.add_0_r. eauto.
Qed.

Lemma lead_length_reads w : forall b r,
  forallb cls w = true -> ch BULLET b = true ->
  marker_ahead cls (w ++ b :: r) = true
  /\ length w <= lead_length cls (w ++ b :: r).
Proof using Type.
  induction w as [|c w IH]; intros b r Hw Hb; simpl in *.
  - rewrite Hb. split; [reflexivity|lia].
  - apply andb_true_iff in Hw. destruct Hw as [Hc Hw].
    destruct (IH b r Hw Hb) as [Hm Hl]. rewrite Hc, Hm, orb_true_r.
    simpl. split; [reflexivity|lia].
Qed.

(** No cut that passes the look-ahead is longer. *)
Lemma ahead_bound prev s n g st :
  In st (flat_map (run (Ahead true (ch BULLET))) (greedy cls 0 prev n s g)) ->
  m_pos st <= n + lead_length cls s.
Proof using Type.
  intros Hin. apply in_flat_map in Hin. destruct Hin as (a & Ha & Hin).
  simpl in Hin.
  destruct (holds (ch BULLET) (head (m_rest a))) eqn:Hh; [|contradiction].
  destruct Hin as [<-|[]].
  apply greedy_reads in Ha. destruct Ha as (w & (R & P & _) & _ & F & _).
  simpl in R, P. destruct (m_rest a) as [|b r]; [discriminate|].
  simpl in Hh. subst s. rewrite P.
  destruct (lead_length_reads w b r F Hh) as [_ Hl]. lia.
Qed.

(** The match of the third pattern at a cursor. *)
Lemma lead_here adv prev s :
  match_here (Behind true (ch NL) ⋅ Rep 0 cls ⋅ Ahead true (ch BULLET))%re
             adv prev s =
  if holds (ch NL) prev && marker_ahead cls s
  then if adv && (lead_length cls s =? 0) then None
       else Some (MState (prev_after prev (take (lead_length cls s) s))
                         (lead_length cls s) (drop (lead_length cls s) s) ∅)
  else None.
Proof using bullet_in_cls.
  unfold match_here.
  change (run (Behind true (ch NL) ⋅ Rep 0 cls ⋅ Ahead true (ch BULLET))%re
              (MState prev 0 s ∅))
    with (flat_map (run (Ahead true (ch BULLET)))
            (flat_map (fun st => greedy cls 0 (m_prev st) (m_pos st)
                                   (m_rest st) (m_groups st))
               (if Bool.eqb (holds (ch NL) prev) true
                then [MState prev 0 s ∅] else []))).
  destruct (holds (ch NL) prev); [|reflexivity].
  cbn [Bool.eqb andb]. cbn [flat_map m_prev m_pos m_rest m_groups].
  rewrite app_nil_r.
  destruct (marker_ahead cls s) eqn:Hm.
  - destruct (ahead_some prev s 0 ∅ Hm) as [tl E].
    destruct adv; cbn [andb negb orb].
    + destruct (Nat.eqb_spec (lead_length cls s) 0) as [E0|E0].
      * assert (Hnone : forall l,
                  (forall st, In st l -> m_pos st <= 0) ->
                  List.filter (fun st => 0 <? m_pos st) l = []).
        { clear. induction l as [|a l IH]; intros Hl; [reflexivity|].
          simpl. destruct (Nat.ltb_spec 0 (m_pos a)) as [Hp|Hp].
          - specialize (Hl a (or_introl eq_refl)). lia.
          - apply IH. intros st Hin. apply Hl. right. exact Hin. }
        rewrite Hnone; [reflexivity|].
        intros st Hin. apply ahead_bound in Hin. lia.
      * rewrite E. simpl.
        destruct (lead_length cls s) as [|k]; [congruence|]. reflexivity.
    + rewrite E. reflexivity.
  - rewrite ahead_none by exact Hm. reflexivity.
Qed.

Lemma strip_lead_skip s :
  strip_lead cls true s = strip_lead cls true (drop (lead_length cls s) s).
Proof using Type.
  induction s as [|c s IH]; [reflexivity|]. simpl.
  destruct (cls c && marker_ahead cls s) eqn:E; [exact IH|].
  simpl. rewrite E. reflexivity.
Qed.

Lemma lead_length_drop s :
  lead_length cls (drop (lead_length cls s) s) = 0.
Proof using Type.
  induction s as [|c s IH]; [reflexivity|]. simpl.
  destruct (cls c && marker_ahead cls s) eqn:E; [exact IH|].
  simpl. rewrite E. reflexivity.
Qed.

Lemma strip_lead_unarmed s a b :
  lead_length cls s = 0 -> strip_lead cls a s = strip_lead cls b s.
Proof using Type.
  destruct s as [|c s]; [reflexivity|]. simpl.
  destruct (cls c && marker_ahead cls s) eqn:E; [discriminate|].
  intros _. rewrite <- !andb_assoc, E, !andb_false_r. reflexivity.
Qed.

(** The loop with the third pattern is [strip_lead]. *)
Lemma sub_lead n : forall s prev,
  length s <= n ->
  sub_from (Behind true (ch NL) ⋅ Rep 0 cls ⋅ Ahead true (ch BULLET))%re
           [] prev s 0
  = strip_lead cls (holds (ch NL) prev) s.
Proof using bullet_in_cls.
  induction n as [|n IH]; intros s prev Hlen.
  - destruct s; [|simpl in Hlen; lia].
    rewrite sub_from_step, !lead_here. simpl.
    rewrite andb_false_r. reflexivity.
  - rewrite sub_from_step, !lead_here.
    destruct (holds (ch NL) prev && marker_ahead cls s) eqn:E.
    + apply andb_true_iff in E. destruct E as [Hp Hm]. rewrite Hp.
      cbn [andb m_pos m_groups expand flat_map app].
      destruct (lead_length cls s) as [|k] eqn:Ek.
      * cbn [Nat.eqb]. destruct s as [|c s]; [discriminate|].
        simpl copy_one. rewrite IH by (simpl in Hlen; lia).
        simpl in Ek |- *.
        destruct (cls c && marker_ahead cls s) eqn:E; [discriminate|].
        reflexivity.
      * unfold resume. cbn [m_pos m_groups expand flat_map app].
        pose proof (lead_length_drop s) as Hd. rewrite Ek in Hd.
        assert (Hle : S k <= length s).
        { clear -Ek. revert k Ek. induction s as [|c s IHs]; intros k Ek;
            simpl in *; [discriminate|].
          destruct (cls c && marker_ahead cls s); [|discriminate].
          injection Ek as <-. destruct (lead_length cls s) eqn:El; [lia|].
          specialize (IHs _ eq_refl). lia. }
        rewrite IH by (rewrite length_drop; lia).
        rewrite (strip_lead_unarmed _ _ true Hd).
        rewrite (strip_lead_skip s), Ek. reflexivity.
    + destruct s as [|c s]; [reflexivity|].
      simpl copy_one. rewrite IH by (simpl in Hlen; lia).
      simpl in E |- *.
      destruct (holds (ch NL) prev); [|reflexivity].
      simpl in E |- *. apply orb_false_iff in E. destruct E as [_ E].
      rewrite E. reflexivity.
Qed.

End Lead.

Lemma bullet_in_class c : ch BULLET c = true -> NLPProcessor.bullet_class c = true.
Proof.
  unfold NLPProcessor.bullet_class. intros ->. rewrite orb_true_r. reflexivity.
Qed.

Lemma sub_bullet_lead_spec s :
  Re.sub NLPProcessor.bullet_lead [] s
  = strip_lead NLPProcessor.bullet_class false s.
Proof.
  unfold Re.sub, NLPProcessor.bullet_lead.
  rewrite (sub_lead _ bullet_in_class (length s)) by lia. reflexivity.
Qed.

(** The three passes together. *)
Lemma fix_paragraphs_spec s :
  NLPProcessor._fix_paragraphs s
  = strip_lead NLPProcessor.bullet_class false (collapse_breaks (join_lines s)).
Proof.
  unfold NLPProcessor._fix_paragraphs.
  rewrite sub_single_break_spec, sub_many_breaks_spec, sub_bullet_lead_spec.
  reflexivity.
Qed.

End ReFacts.

(* ===================================================================== *)
(** ** Facts about numbers *)
(* ===================================================================== *)

Section NumFacts.

(** The test [Qltb] decides the strict order. *)
Lemma Qltb_lt (x y : Q) : Qltb x y = true <-> (x < y)%Q.
Proof.
  unfold Qltb. rewrite negb_true_iff. split.
  - intros E. apply Qnot_le_lt. intros Hle. apply Qle_bool_iff in Hle. congruence.
  - intros Hlt. destruct (Qle_bool y x) eqn:E; [|reflexivity].
    apply Qle_bool_iff in E. exfalso. apply (Qlt_not_le _ _ Hlt E).
Qed.

Lemma Qltb_ge (x y : Q) : Qltb x y = false <-> (y <= x)%Q.
Proof.
  unfold Qltb. rewrite negb_false_iff. apply Qle_bool_iff.
Qed.

(** A boosted and clamped confidence stays in the unit interval. *)
Lemma boost_in_unit (c k : Q) :
  (0 <= c)%Q -> (0 <= k)%Q -> (0 <= Qmin 1 (c * k) <= 1)%Q.
Proof.
  intros Hc Hk. split.
  - apply Q.min_glb; [lra|]. apply Qmult_le_0_compat; assumption.
  - apply Q.le_min_l.
Qed.

End NumFacts.

(* ===================================================================== *)
(** ** Facts about the recognition paths *)
(* ===================================================================== *)

Section OcrFacts.
Context `{Backend}.

(** [if word.strip()] keeps the words that are not blank. *)
Lemma truthy_strip_nonblank w : truthy (strip w) = nonblank w.
Proof.
  unfold nonblank. destruct (forallb isspace w) eqn:E.
  - apply strip_blank in E. rewrite E. reflexivity.
  - destruct (truthy (strip w)) eqn:T; [reflexivity|].
    apply strip_blank in T. congruence.
Qed.

Lemma full_text_of_tokens tokens :
  OCRModel.full_text_of (data_of tokens) = raster_text tokens.
Proof.
  unfold OCRModel.full_text_of, raster_text. simpl. f_equal.
  apply List.filter_ext. intros w. apply truthy_strip_nonblank.
Qed.

Lemma confidences_of_tokens tokens :
  OCRModel.confidences_of (data_of tokens)
  = map snd (List.filter valid_token tokens).
Proof.
  unfold OCRModel.confidences_of. simpl.
  induction tokens as [|[w q] tokens IH]; [reflexivity|].
  simpl. unfold valid_token at 1. simpl.
  rewrite truthy_strip_nonblank.
  destruct (nonblank w && negb (Qeq_bool q (-1))); simpl; rewrite IH;
    reflexivity.
Qed.

Lemma confidence_score_of_tokens tokens :
  OCRModel.confidence_score_of (data_of tokens) = raster_confidence tokens.
Proof.
  unfold OCRModel.confidence_score_of, raster_confidence.
  rewrite confidences_of_tokens.
  destruct (List.filter valid_token tokens); reflexivity.
Qed.

End OcrFacts.

Section IoFacts.
Context `{Backend}.

(** The monad laws of [io]. *)
Lemma io_bind_ret_l {A B} (a : A) (f : A -> io B) : io_bind f (io_ret a) = f a.
Proof. unfold io_bind, io_ret. destruct (f a). reflexivity. Qed.

Lemma io_bind_ret_r {A} (m : io A) : io_bind io_ret m = m.
Proof.
  destruct m as [log [a|]]; simpl; [|reflexivity]. rewrite app_nil_r. reflexivity.
Qed.

Lemma io_bind_assoc {A B C} (m : io A) (f : A -> io B) (g : B -> io C) :
  io_bind g (io_bind f m) = io_bind (fun a => io_bind g (f a)) m.
Proof.
  destruct m as [log [a|]]; simpl; [|reflexivity].
  destruct (f a) as [log1 [b|]]; simpl; [|reflexivity].
  destruct (g b) as [log2 r]. rewrite app_assoc. reflexivity.
Qed.

Lemma io_bind_ext {A B} (m : io A) (f g : A -> io B) :
  (forall a, f a = g a) -> io_bind f m = io_bind g m.
Proof.
  intros E. destruct m as [log [a|]]; simpl; [|reflexivity]. rewrite E. reflexivity.
Qed.

(** One iteration of the page loop appends the result of the page. *)
Lemma pdf_page_step_result self lang_code acc page :
  OCRModel.pdf_page_step self lang_code acc page
  = io_bind (fun r => io_ret (acc.1 ++ [r.1], acc.2 ++ [r.2]))
            (page_result self lang_code page).
Proof.
  destruct acc as [texts confs].
  unfold OCRModel.pdf_page_step, page_result, mbind, io_mbind, mret, io_mret.
  rewrite io_bind_assoc. apply io_bind_ext. intros [text|].
  - rewrite <- truthy_strip_nonblank.
    destruct text as [|c text]; simpl truthy at 1.
    + simpl andb. replace (truthy (strip [])) with false by reflexivity.
      rewrite !io_bind_assoc. apply io_bind_ext. intros img.
      apply io_bind_ext. intros [t q]. reflexivity.
    + simpl andb. destruct (truthy (strip (c :: text))).
      * reflexivity.
      * rewrite !io_bind_assoc. apply io_bind_ext. intros img.
        apply io_bind_ext. intros [t q]. reflexivity.
  - rewrite !io_bind_assoc. apply io_bind_ext. intros img.
    apply io_bind_ext. intros [t q]. reflexivity.
Qed.

(** The page loop appends the results of the pages, in order. *)
Lemma pdf_page_loop_results self lang_code pages : forall acc,
  OCRModel.pdf_page_loop self lang_code pages acc
  = io_bind (fun rs => io_ret (acc.1 ++ map fst rs, acc.2 ++ map snd rs))
            (io_sequence (map (page_result self lang_code) pages)).
Proof.
  induction pages as [|page pages IH]; intros [texts confs].
  - simpl. unfold mret, io_mret, io_bind, io_ret. simpl.
    rewrite !app_nil_r. reflexivity.
  - cbn [OCRModel.pdf_page_loop map io_sequence].
    unfold mbind, io_mbind, mret, io_mret.
    rewrite pdf_page_step_result, !io_bind_assoc.
    apply io_bind_ext. intros [t q]. rewrite io_bind_ret_l, IH.
    rewrite !io_bind_assoc. apply io_bind_ext. intros rs.
    rewrite io_bind_ret_l. simpl. rewrite <- !app_assoc. reflexivity.
Qed.

(** The mean of equal values is that value. *)
Lemma mean_repeat (q : Q) (n : nat) :
  (OCRModel.mean (repeat q (S n)) == q)%Q.
Proof.
  unfold OCRModel.mean. rewrite repeat_length.
  assert (E : (fold_right Qplus 0 (repeat q (S n))
               == inject_Z (Z.of_nat (S n)) * q)%Q).
  { induction n as [|n IH].
    - simpl. ring.
    - change (repeat q (S (S n))) with (q :: repeat q (S n)).
      cbn [fold_right]. rewrite IH.
      rewrite (Nat2Z.inj_succ (S n)). unfold Z.succ. rewrite inject_Z_plus. ring. }
  rewrite E. field.
  intros E0. assert (Hpos : (0 < inject_Z (Z.of_nat (S n)))%Q).
  { rewrite <- (Zlt_Qlt 0). lia. }
  rewrite E0 in Hpos. apply (Qlt_irrefl _ Hpos).
Qed.

End IoFacts.

(* ===================================================================== *)
(** ** Facts about deskewing *)
(* ===================================================================== *)

Import ImagePreprocessor.

Section PreFacts.
Context `{Backend}.

(** The loop over the contours raises as soon as a call on a contour
    does. *)
Lemma collect_angles_area_raises contours : forall angles,
  (exists c, In c contours /\ contourArea c = None) ->
  collect_angles contours angles = None.
Proof.
  induction contours as [|c0 contours IH]; intros angles (c & Hin & Hc).
  - destruct Hin.
  - simpl. destruct Hin as [->|Hin].
    + rewrite Hc. reflexivity.
    + destruct (contourArea c0) as [area|]; [|reflexivity]. simpl.
      destruct (Qltb area 100); [apply IH; eauto|].
      destruct (minAreaRect_angle c0); [|reflexivity]. simpl. apply IH; eauto.
Qed.

Lemma collect_angles_rect_raises contours : forall angles,
  (exists c area, In c contours /\ contourArea c = Some area
                  /\ (100 <= area)%Q /\ minAreaRect_angle c = None) ->
  collect_angles contours angles = None.
Proof.
  induction contours as [|c0 contours IH];
    intros angles (c & area & Hin & Hc & Ha & Hr).
  - destruct Hin.
  - simpl. destruct Hin as [->|Hin].
    + rewrite Hc. simpl. apply Qltb_ge in Ha. rewrite Ha, Hr. reflexivity.
    + destruct (contourArea c0) as [area0|]; [|reflexivity]. simpl.
      destruct (Qltb area0 100); [apply IH; eauto 6|].
      destruct (minAreaRect_angle c0); [|reflexivity]. simpl.
      apply IH; eauto 6.
Qed.

(** Contours below the area threshold contribute no angle. *)
Lemma collect_angles_all_small contours : forall angles,
  Forall (fun c => exists area, contourArea c = Some area /\ (area < 100)%Q)
         contours ->
  collect_angles contours angles = Some angles.
Proof.
  induction contours as [|c0 contours IH]; intros angles Hall.
  - reflexivity.
  - apply Forall_cons in Hall. destruct Hall as [(area & Hc & Ha) Hall].
    simpl. rewrite Hc. simpl. apply Qltb_lt in Ha. rewrite Ha. apply IH, Hall.
Qed.

(** If a step raises, the [try] block does not complete. *)
Lemma raises_deskew_try img_array gray :
  raises_in_try img_array gray -> deskew_try img_array gray = None.
Proof.
  intros [Ht|binary Ht Hc|binary contours c Ht Hc Hin Ha
          |binary contours c area Ht Hc Hin Ha Hle Hr
          |angle Hs Hd|angle h w dims Hs Hd Hw
          |angle h w dims rotated Hs Hd Hw Hf]; unfold deskew_try, skew_angle.
  - rewrite Ht. reflexivity.
  - rewrite Ht. simpl. rewrite Hc. reflexivity.
  - rewrite Ht. simpl. rewrite Hc. simpl.
    rewrite collect_angles_area_raises by eauto. reflexivity.
  - rewrite Ht. simpl. rewrite Hc. simpl.
    rewrite collect_angles_rect_raises by eauto 6. reflexivity.
  - fold (skew_angle gray). rewrite Hs. simpl. unfold rotate.
    destruct (shape img_array) as [|h [|w dims]]; [reflexivity|reflexivity|].
    simpl in Hd. lia.
  - fold (skew_angle gray). rewrite Hs. simpl. unfold rotate.
    rewrite Hd, Hw. reflexivity.
  - fold (skew_angle gray). rewrite Hs. simpl. unfold rotate.
    rewrite Hd, Hw. simpl. exact Hf.
Qed.

End PreFacts.

(* ===================================================================== *)
(** ** The model on concrete inputs *)
(* ===================================================================== *)

Section Examples.
Local Existing Instance ascii_tables.
Local Existing Instance Toy.world.

(** Step A of the corrector: the five rule passes, then the glyph table. *)
Example step_A_on_stuck_tokens :
  MLEnhancementModel._apply_rule_based_corrections (lit "l5Hello.World")
  = lit "I 5 Hello. World".
Proof. vm_compute. reflexivity. Qed.

Example step_A_turns_zero_into_O :
  MLEnhancementModel._apply_rule_based_corrections (lit "a0b  c`d")
  = lit "a O b c'd".
Proof. vm_compute. reflexivity. Qed.

(** The pattern passes of the normalizer. *)
Example fix_patterns_on_spacing :
  NLPProcessor._fix_patterns (lit "3.14 foo , bar . baz   helloWorld")
  = lit "3.14 foo, bar. baz hello World".
Proof. vm_compute. reflexivity. Qed.

(** The paragraph fix-up: a single break is joined, four breaks collapse
    to two, and the break and spaces before a bullet are stripped. *)
Example fix_paragraphs_on_breaks :
  NLPProcessor._fix_paragraphs
    (lit "a" ++ [NL] ++ lit "b" ++ [NL; NL; NL; NL] ++ lit "c"
       ++ [NL; NL; SP; SP; BULLET] ++ lit "d")
  = lit "a b" ++ [NL; NL] ++ lit "c" ++ [NL; BULLET] ++ lit "d".
Proof. vm_compute. reflexivity. Qed.

(** [re.sub] replaces an empty match next to a match that is not empty:
    [re.sub('a*', '-', 'baac')] is ['-b--c-']. *)
Example sub_with_empty_matches :
  Re.sub (Rep 0 (ch 97)) [Lit HYPHEN] (lit "baac") = lit "-b--c-".
Proof. vm_compute. reflexivity. Qed.

(** [os.path.splitext]: leading dots of the file name are no extension. *)
Example splitext_on_dot_files :
  (TextExtractionService.splitext 47 None (lit "/x/.pdf")).2 = []
  /\ (TextExtractionService.splitext 47 None (lit "a.b/c.tar.GZ")).2
     = lit ".GZ".
Proof. vm_compute. split; reflexivity. Qed.

Example file_type_ignores_case :
  TextExtractionService._determine_file_type 47 None (lit "Scan.PDF")
  = lit "pdf"
  /\ TextExtractionService._determine_file_type 47 None (lit "a.JpEg")
     = lit "image".
Proof. vm_compute. split; reflexivity. Qed.

(** A whole extraction of an image: recognition on the deskewed image,
    then the corrector, then the normalizer; 0.85 is not below the gate,
    so the boost is 5%. *)
Example extract_text_on_a_scan :
  exists confidence,
    TextExtractionService.extract_text 47 None Toy.service
      (lit "scan.png") (Some (lit "auto")) true
    = ([Recognize (Toy.rotated_by Toy.scan 0) (lit "eng");
        Enhance (lit "Hello World") (raster_confidence Toy.hello_tokens);
        Normalize (lit "Hello World")],
       Some (lit "Hello World", confidence))
    /\ (confidence == 0.8925)%Q.
Proof. eexists. split; [vm_compute; reflexivity|]. vm_compute. reflexivity. Qed.

(** A file that cannot be opened gives the sentinel of the image path,
    which then goes through the corrector and the normalizer. *)
Example extract_text_on_a_missing_image :
  exists log,
    TextExtractionService.extract_text 47 None Toy.service
      (lit "missing.png") (Some (lit "auto")) true
    = (log, Some (lit "Image processing failed", Qmin 1 (0 * 1.15)))
    /\ length log = 2%nat.
Proof. eexists. split; vm_compute; reflexivity. Qed.

(** The scan has one contour, of area 12: the image is rotated by 0. *)
Example deskew_on_small_contours :
  ImagePreprocessor.deskew (inl Toy.scan)
  = Some (inl (Toy.rotated_by Toy.scan 0)).
Proof. vm_compute. reflexivity. Qed.

Example median_of_angles :
  ImagePreprocessor.median [3; 1; 2]%Q = 2%Q
  /\ (ImagePreprocessor.median [4; 1; 3; 2]%Q == 2.5)%Q.
Proof. split; vm_compute; reflexivity. Qed.

End Examples.

(* ===================================================================== *)
(** ** Facts about documents *)
(* ===================================================================== *)

Section DocumentFacts.





Context `{Backend}.





End DocumentFacts.

(** [min(1.0, x)] never exceeds 1.0. *)
Lemma py_min_clamps (x : float) : (Binary64.py_min 1 x <=? 1)%float = true.
Proof.
  unfold Binary64.py_min. destruct (x <? 1)%float eqn:E; [|reflexivity].
  rewrite ltb_spec in E. rewrite leb_spec.
  unfold SpecFloat.SFltb in E. unfold SpecFloat.SFleb.
  destruct (SpecFloat.SFcompare _ _) as [[]|]; congruence.
Qed.

(* ===================================================================== *)
(** ** The properties *)
(* ===================================================================== *)

Import TextExtractionService.

(** C1.  For every text and every starting confidence in [0,1], the
    corrector ([enhance_text]: rule passes, then the confidence
    adjustment) followed by the normalizer ([process_text]) yields a
    confidence in [0,1], whichever branch is taken: model correction, its
    failure, the flat boost, or the short-circuit on blank text.  The same
    holds after any number of such passes. *)
Theorem C1_confidence_stays_in_unit_interval `{Unicode}
    (ml : MLEnhancementModel.t) (nlp : NLPProcessor.t) (text : str) (c : Q) :
  (0 <= c <= 1)%Q ->
  let pass := fun p : str * Q =>
    (NLPProcessor.process_text nlp
       (MLEnhancementModel.enhance_text ml p.1 p.2).1,
     (MLEnhancementModel.enhance_text ml p.1 p.2).2) in
  (0 <= (pass (text, c)).2 <= 1)%Q
  /\ forall n, (0 <= (Nat.iter n pass (text, c)).2 <= 1)%Q.
Proof.
  intros Hc pass.
  assert (Hpass : forall p, (0 <= p.2 <= 1)%Q -> (0 <= (pass p).2 <= 1)%Q).
  { intros [t q] [H0 H1]. unfold pass. cbn [fst snd].
    unfold MLEnhancementModel.enhance_text.
    destruct (negb (truthy t) || negb (truthy (strip t))); [simpl; auto|].
    destruct (MLEnhancementModel.initialized ml && Qltb q 0.85).
    - destruct (MLEnhancementModel._apply_ml_corrections ml _); simpl;
        [|auto].
      apply boost_in_unit; [exact H0|lra].
    - simpl. apply boost_in_unit; [exact H0|lra]. }
  split; [apply Hpass; exact Hc|].
  induction n as [|n IH]; [exact Hc|]. simpl. apply Hpass, IH.
Qed.

Lemma C1_witness :
  (0 <= 0.5 <= 1)%Q
  /\ (0 <= (@MLEnhancementModel.enhance_text ascii_tables Toy.model
              (lit "l5Hello.World") 0.5).2 <= 1)%Q.
Proof.
  assert (Hc : (0 <= 0.5 <= 1)%Q) by (split; unfold Qle; simpl; lia).
  split; [exact Hc|].
  exact (proj1 (@C1_confidence_stays_in_unit_interval ascii_tables
                  Toy.model Toy.processor (lit "l5Hello.World") 0.5 Hc)).
Defined.

(** C2.  Tier selection is a strict-threshold decision on the blur and
    contrast metrics: Low iff blur > 100 and contrast > 50; Medium iff
    that fails and blur > 50 and contrast > 30; High otherwise.  At the
    boundary blur = 100, contrast = 50 the tier is Medium. *)
Theorem C2_tier_selection_is_strict `{Backend} (img : ndarray) (blur : Q) :
  laplacian_var img = Some blur ->
  let contrast := std img in
  (_determine_enhancement_level img = Some low
     <-> (100 < blur /\ 50 < contrast)%Q)
  /\ (_determine_enhancement_level img = Some medium
     <-> (~ (100 < blur /\ 50 < contrast) /\ 50 < blur /\ 30 < contrast)%Q)
  /\ (_determine_enhancement_level img = Some high
     <-> (~ (100 < blur /\ 50 < contrast) /\ ~ (50 < blur /\ 30 < contrast))%Q)
  /\ ((blur == 100)%Q -> (contrast == 50)%Q ->
      _determine_enhancement_level img = Some medium).
Proof.
  intros Hb contrast. unfold _determine_enhancement_level. rewrite Hb. simpl.
  fold contrast.
  destruct (Qltb 100 blur) eqn:B1, (Qltb 50 contrast) eqn:C1,
           (Qltb 50 blur) eqn:B2, (Qltb 30 contrast) eqn:C2; simpl;
    repeat match goal with
           | E : Qltb _ _ = true |- _ => apply Qltb_lt in E
           | E : Qltb _ _ = false |- _ => apply Qltb_ge in E
           end;
    repeat split; try discriminate; try congruence; try tauto; try lra;
    try (intros; exfalso; lra); try (intros [? ?]; lra);
    try (intros [? [? ?]]; lra); try (intros [? ?]; exfalso; tauto).
Qed.

Lemma C2_witness :
  @laplacian_var Toy.world Toy.scan = Some 100%Q
  /\ @_determine_enhancement_level Toy.world Toy.scan = Some medium.
Proof.
  split; [reflexivity|].
  destruct (@C2_tier_selection_is_strict Toy.world Toy.scan 100 eq_refl)
    as (_ & _ & _ & Hboundary).
  apply Hboundary; reflexivity.
Defined.

(** C3.  For every list of recognised word tokens, the raster path
    returns the non-blank word texts joined by single spaces, and the mean
    of the raw confidences of the words with non-blank text and confidence
    different from -1, divided by 100, or 0 when no word qualifies; it
    calls the recognition backend once.  The words ("Hello",90), ("",-1),
    ("World",80) give "Hello World" and 0.85. *)
Theorem C3_raster_path_aggregates_words `{Backend}
    (self : OCRModel.t) (img : pil) (lang_code : option str)
    (tokens : list (str * Q)) :
  image_to_data img (OCRModel.ocr_language self lang_code) = Some (data_of tokens) ->
  OCRModel.extract_text_from_image self (inl img) lang_code
  = ([Recognize img (OCRModel.ocr_language self lang_code)],
     Some (raster_text tokens, raster_confidence tokens))
  /\ (let hello := [(lit "Hello", 90%Q); (lit "", (-1)%Q); (lit "World", 80%Q)] in
      OCRModel.full_text_of (data_of hello) = lit "Hello World"
      /\ (OCRModel.confidence_score_of (data_of hello) == 0.85)%Q).
Proof.
  intros Hdata. split.
  - unfold OCRModel.extract_text_from_image.
    unfold mbind, io_mbind, mret, io_mret, io_bind, io_tell, io_lift, io_ret.
    rewrite Hdata. simpl.
    rewrite full_text_of_tokens, confidence_score_of_tokens. reflexivity.
  - split; vm_compute; reflexivity.
Qed.

Lemma C3_witness :
  @image_to_data Toy.world Toy.scan
     (OCRModel.ocr_language OCRModel.create (Some (lit "auto")))
  = Some (data_of Toy.hello_tokens)
  /\ @OCRModel.extract_text_from_image Toy.world OCRModel.create
       (inl Toy.scan) (Some (lit "auto"))
     = ([@Recognize Toy.world Toy.scan (lit "eng")],
        Some (raster_text Toy.hello_tokens,
              raster_confidence Toy.hello_tokens)).
Proof.
  split; [reflexivity|].
  exact (proj1 (@C3_raster_path_aggregates_words Toy.world OCRModel.create
                  Toy.scan (Some (lit "auto")) Toy.hello_tokens eq_refl)).
Defined.



(** C5.  Step B of the corrector, reached on non-blank text, is gated by
    the confidence, a binary64 float.  With the model initialised and a
    confidence strictly below 0.85, the result is min(1.0, c * 1.15) when
    the model correction succeeds, and the Step A text with the confidence
    unchanged when it fails.  Otherwise the text is the Step A text and
    the confidence min(1.0, c * 1.05).  The products are rounded to
    binary64 and the minimum never exceeds 1.0.  From 0.5 the result is at
    most 0.575.  From 0.9 the flat boost applies and the result is
    0.9450000000000001, the float next above 0.945; from 0.85 it is
    0.8925 by the flat boost, and from 0.99 it is clamped to 1.0. *)
Theorem C5_step_B_is_confidence_gated `{Unicode}
    (ml : MLEnhancementModel.t) (text : str) (c : float) :
  forallb isspace text = false ->
  let corrected := MLEnhancementModel._apply_rule_based_corrections text in
  (MLEnhancementModel.initialized ml = true -> (c <? 0.85)%float = true ->
     (forall out,
        MLEnhancementModel._apply_ml_corrections ml corrected = Some out ->
        Binary64.enhance_text ml text c
        = (out, Binary64.py_min 1 (c * 1.15)%float))
     /\ (MLEnhancementModel._apply_ml_corrections ml corrected = None ->
         Binary64.enhance_text ml text c = (corrected, c)))
  /\ (MLEnhancementModel.initialized ml = false \/ (c <? 0.85)%float = false ->
      Binary64.enhance_text ml text c
      = (corrected, Binary64.py_min 1 (c * 1.05)%float))
  /\ (forall x, (Binary64.py_min 1 x <=? 1)%float = true)
  /\ (MLEnhancementModel.initialized ml = true ->
      ((Binary64.enhance_text ml text 0.5).2 <=? 0.575)%float = true)
  /\ Binary64.enhance_text ml text 0.9 = (corrected, 0.9450000000000001%float)
  /\ (0.945 <? 0.9450000000000001)%float = true
  /\ Binary64.enhance_text ml text 0.85 = (corrected, 0.8925%float)
  /\ Binary64.enhance_text ml text 0.99 = (corrected, 1%float).
Proof.
  intros Hnb corrected.
  assert (Hg : negb (truthy text) || negb (truthy (strip text)) = false).
  { destruct (negb (truthy text) || negb (truthy (strip text))) eqn:E;
      [|reflexivity].
    apply blank_guard in E. congruence. }
  assert (Hml : forall c',
            MLEnhancementModel.initialized ml = true ->
            (c' <? 0.85)%float = true ->
            Binary64.enhance_text ml text c' =
            match MLEnhancementModel._apply_ml_corrections ml corrected with
            | Some out => (out, Binary64.py_min 1 (c' * 1.15)%float)
            | None => (corrected, c')
            end).
  { intros c' Hi Hc. unfold Binary64.enhance_text.
    rewrite Hg, Hi, Hc. reflexivity. }
  assert (Hrb : forall c',
            MLEnhancementModel.initialized ml = false
            \/ (c' <? 0.85)%float = false ->
            Binary64.enhance_text ml text c'
            = (corrected, Binary64.py_min 1 (c' * 1.05)%float)).
  { intros c' Hc. unfold Binary64.enhance_text. rewrite Hg.
    destruct Hc as [Hi|Hc].
    - rewrite Hi. reflexivity.
    - rewrite Hc, andb_false_r. reflexivity. }
  split; [|split; [|split; [|split; [|split; [|split; [|split]]]]]].
  - intros Hi Hc. rewrite (Hml c Hi Hc). split.
    + intros out ->. reflexivity.
    + intros ->. reflexivity.
  - apply Hrb.
  - apply py_min_clamps.
  - intros Hi. rewrite (Hml 0.5%float Hi) by reflexivity.
    destruct (MLEnhancementModel._apply_ml_corrections ml corrected);
      reflexivity.
  - rewrite Hrb by (right; reflexivity). reflexivity.
  - reflexivity.
  - rewrite Hrb by (right; reflexivity). reflexivity.
  - rewrite Hrb by (right; reflexivity). reflexivity.
Qed.

Lemma C5_witness :
  forallb isspace (lit "l5Hello.World") = false
  /\ ((@Binary64.enhance_text ascii_tables Toy.model
         (lit "l5Hello.World") 0.5).2 <=? 0.575)%float = true
  /\ (@Binary64.enhance_text ascii_tables Toy.model
        (lit "l5Hello.World") 0.9).2 = 0.9450000000000001%float.
Proof.
  split; [reflexivity|].
  destruct (@C5_step_B_is_confidence_gated ascii_tables Toy.model
              (lit "l5Hello.World") 0.5%float eq_refl)
    as (_ & _ & _ & Hlow & Hhigh & _).
  split; [apply Hlow; reflexivity|].
  rewrite Hhigh. reflexivity.
Defined.

(** C5, as stated: from 0.9 the result would be at most 0.945.  The code
    returns the binary64 product of 0.9 and 1.05, which is
    0.9450000000000001, the float next above 0.945. *)
Lemma C5_counterexample_product_above_0945 :
  (@Binary64.enhance_text ascii_tables Toy.model (lit "l5Hello.World") 0.9).2
  = (0.9 * 1.05)%float
  /\ (0.9 * 1.05)%float = 0.9450000000000001%float
  /\ (0.9 * 1.05)%float = next_up 0.945%float
  /\ ((@Binary64.enhance_text ascii_tables Toy.model
         (lit "l5Hello.World") 0.9).2 <=? 0.945)%float = false.
Proof.
  split; [vm_compute; reflexivity|].
  split; [vm_compute; reflexivity|].
  split; vm_compute; reflexivity.
Qed.

(** C6.  For every path whose extension, lowercased, is neither .pdf
    nor one of .png, .jpg, .jpeg, .bmp, .tiff, .gif, [extract_text]
    returns ("Unsupported file type", 0.0) at once: no handler, no
    enhancement and no normalizer is called. *)
Theorem C6_unsupported_extension_returns_sentinel `{Unicode} `{Backend}
    (sep : codepoint) (altsep : option codepoint)
    (self : TextExtractionService.t) (file_path : str)
    (source_lang : option str) (enhance : bool) :
  lower (splitext sep altsep file_path).2 <> lit ".pdf" ->
  lower (splitext sep altsep file_path).2 ∉ image_extensions ->
  _determine_file_type sep altsep file_path = lit "unknown"
  /\ extract_text sep altsep self file_path source_lang enhance
     = ([], Some (lit "Unsupported file type", 0%Q)).
Proof.
  intros Hpdf Himg.
  assert (Ht : _determine_file_type sep altsep file_path = lit "unknown").
  { unfold _determine_file_type.
    rewrite bool_decide_eq_false_2 by exact Hpdf.
    rewrite bool_decide_eq_false_2 by exact Himg. reflexivity. }
  split; [exact Ht|].
  unfold extract_text. rewrite Ht. unfold file_handlers.
  rewrite lookup_insert_ne by discriminate.
  rewrite lookup_singleton_ne by discriminate. reflexivity.
Qed.

Lemma C6_witness :
  (@lower ascii_tables (splitext 47 None (lit "/tmp/report.docx")).2
   <> lit ".pdf")
  /\ (@lower ascii_tables (splitext 47 None (lit "/tmp/report.docx")).2
      ∉ image_extensions)
  /\ @extract_text ascii_tables Toy.world 47 None Toy.service
       (lit "/tmp/report.docx") (Some (lit "auto")) true
     = ([], Some (lit "Unsupported file type", 0%Q)).
Proof.
  assert (Hpdf : @lower ascii_tables
                   (splitext 47 None (lit "/tmp/report.docx")).2
                 <> lit ".pdf") by (vm_compute; discriminate).
  assert (Himg : @lower ascii_tables
                   (splitext 47 None (lit "/tmp/report.docx")).2
                 ∉ image_extensions).
  { vm_compute. intros Hin.
    repeat (apply elem_of_cons in Hin; destruct Hin as [Hin|Hin];
            [discriminate|]).
    apply elem_of_nil in Hin. exact Hin. }
  split; [exact Hpdf|]. split; [exact Himg|].
  exact (proj2 (@C6_unsupported_extension_returns_sentinel ascii_tables
                  Toy.world 47 None Toy.service (lit "/tmp/report.docx")
                  (Some (lit "auto")) true Hpdf Himg)).
Defined.

(** C7.  On a text that is empty or made of whitespace only, the
    corrector returns the text and the confidence unchanged, and the
    normalizer returns the text unchanged. *)
Theorem C7_blank_text_passes_unchanged `{Unicode}
    (ml : MLEnhancementModel.t) (nlp : NLPProcessor.t) (text : str) (c : Q) :
  forallb isspace text = true ->
  MLEnhancementModel.enhance_text ml text c = (text, c) /\ NLPProcessor.process_text nlp text = text.
Proof.
  intros Hb. apply blank_guard in Hb.
  unfold MLEnhancementModel.enhance_text, NLPProcessor.process_text. rewrite Hb. split; reflexivity.
Qed.

Lemma C7_witness :
  forallb isspace [SP; SP; NL] = true
  /\ @MLEnhancementModel.enhance_text ascii_tables Toy.model [SP; SP; NL] 0.4
     = ([SP; SP; NL], 0.4%Q)
  /\ @NLPProcessor.process_text ascii_tables Toy.processor [SP; SP; NL]
     = [SP; SP; NL].
Proof.
  split; [reflexivity|].
  exact (@C7_blank_text_passes_unchanged ascii_tables Toy.model
           Toy.processor [SP; SP; NL] 0.4 eq_refl).
Defined.

(** C8.  Deskewing is not fatal: once the image has its grayscale
    array, whenever a step of skew detection or of rotation raises,
    [deskew] returns its argument itself; it always returns either its
    argument or a rotated image.  When no contour has an area of at least
    100, the angle is 0 and the image is rotated by 0. *)
Theorem C8_deskew_falls_back_to_its_input `{Backend}
    (img : image) (gray : ndarray) :
  to_gray (to_array img) = Some gray ->
  (raises_in_try (to_array img) gray -> deskew img = Some img)
  /\ (forall binary contours,
        threshold_otsu_inv gray = Some binary ->
        findContours binary = Some contours ->
        Forall (fun c => exists area,
                           contourArea c = Some area /\ (area < 100)%Q)
               contours ->
        skew_angle gray = Some 0%Q
        /\ deskew_try (to_array img) gray = rotate (to_array img) 0)
  /\ (deskew img = Some img \/ exists rotated, deskew img = Some (inl rotated)).
Proof.
  intros Hg. split; [|split].
  - intros Hr. unfold deskew. rewrite Hg. simpl.
    rewrite (raises_deskew_try _ _ Hr). reflexivity.
  - intros binary contours Ht Hc Hall.
    assert (Ha : skew_angle gray = Some 0%Q).
    { unfold skew_angle. rewrite Ht. simpl. rewrite Hc. simpl.
      rewrite collect_angles_all_small by exact Hall. reflexivity. }
    split; [exact Ha|]. unfold deskew_try. rewrite Ha. reflexivity.
  - unfold deskew. rewrite Hg. simpl.
    destruct (deskew_try (to_array img) gray); eauto.
Qed.

Lemma C8_witness :
  @to_gray Toy.world (@to_array Toy.world (inl Toy.broken_scan))
  = Some Toy.broken_scan
  /\ @deskew Toy.world (inl Toy.broken_scan) = Some (inl Toy.broken_scan)
  /\ @skew_angle Toy.world Toy.scan = Some 0%Q.
Proof.
  split; [reflexivity|]. split.
  - apply (proj1 (@C8_deskew_falls_back_to_its_input Toy.world
                    (inl Toy.broken_scan) Toy.broken_scan eq_refl)).
    apply (@raises_findContours Toy.world _ _ Toy.broken_scan);
      reflexivity.
  - destruct (@C8_deskew_falls_back_to_its_input Toy.world
                (inl Toy.scan) Toy.scan eq_refl) as (_ & Hsmall & _).
    apply (Hsmall Toy.scan [(Some 12%Q, Some 30%Q)]); [reflexivity..|].
    repeat constructor. exists 12%Q. split; [reflexivity|].
    unfold Qlt. simpl. lia.
Defined.

(** C9, as the code has it.  On every text the paragraph fix-up turns
    each newline that has no newline next to it into one space, then
    collapses each run of three or more newlines to two, then, from the
    code point after a newline on, strips whitespace, bullet markers and
    hyphens as long as a bullet marker still comes next. *)
Theorem C9_paragraph_fix_up_as_written (text : str) :
  Re.sub NLPProcessor.single_break [Lit SP] text = join_lines text
  /\ Re.sub NLPProcessor.many_breaks [Lit NL; Lit NL] text
     = collapse_breaks text
  /\ Re.sub NLPProcessor.bullet_lead [] text
     = strip_lead NLPProcessor.bullet_class false text
  /\ NLPProcessor._fix_paragraphs text = fix_paragraphs_as_written text.
Proof.
  split; [apply sub_single_break_spec|].
  split; [apply sub_many_breaks_spec|].
  split; [apply sub_bullet_lead_spec|].
  apply fix_paragraphs_spec.
Qed.

(** C9, as stated: with a third rewrite that strips whitespace only, the
    fix-up of "Items:", a blank line, "- • first" would leave the text as
    it is; the code removes the second newline, the hyphen and the
    space. *)
Lemma C9_counterexample_hyphen_before_bullet :
  NLPProcessor._fix_paragraphs Toy.bullet_item
  = lit "Items:" ++ [NL; BULLET; SP] ++ lit "first"
  /\ fix_paragraphs_as_specified Toy.bullet_item = Toy.bullet_item
  /\ NLPProcessor._fix_paragraphs Toy.bullet_item
     <> fix_paragraphs_as_specified Toy.bullet_item.
Proof.
  split; [vm_compute; reflexivity|].
  split; [vm_compute; reflexivity|].
  vm_compute. discriminate.
Qed.

(** C10.  The first pattern pass of the normalizer, which replaces
    (\d+)\.(\d+) by \1.\2, returns every text unchanged, so
    [_fix_patterns] is the composition of the other passes. *)
Theorem C10_decimal_pass_is_identity `{Unicode} (text : str) :
  exists pattern replacement others,
    NLPProcessor.patterns = (pattern, replacement) :: others
    /\ Re.sub pattern replacement text = text
    /\ NLPProcessor._fix_patterns text
       = fold_left (fun processed '(p, r) => Re.sub p r processed)
                   others text.
Proof.
  assert (Hid : forall s,
            Re.sub (Grp 1 (Rep 1 isdecimal) ⋅ Cls (ch DOT)
                      ⋅ Grp 2 (Rep 1 isdecimal))%re
                   [Ref 1; Lit DOT; Ref 2] s = s).
  { intros s. unfold Re.sub.
    rewrite (sub_from_identity _ _ (@decimal_match_same _)).
    apply drop_0. }
  eexists _, _, _. split; [reflexivity|]. split; [apply Hid|].
  unfold NLPProcessor._fix_patterns, NLPProcessor.patterns.
  cbn [fold_left]. rewrite Hid. reflexivity.
Qed.

(* ===================================================================== *)
(** ** Facts about the normalizer passes *)
(* ===================================================================== *)


Section TextFacts.

Lemma rep_here lo p adv prev s :
  match_here (Rep (S lo) p) adv prev s =
  if S lo <=? run_length p s
  then Some (MState (prev_after prev (take (run_length p s) s))
                    (run_length p s) (drop (run_length p s) s) ∅)
  else None.
Proof.
  unfold match_here. simpl run.
  destruct (Nat.leb_spec (S lo) (run_length p s)) as [Hle|Hlt].
  - destruct (greedy_long p s (S lo) prev 0 ∅ Hle) as [tl ->].
    simpl. destruct (run_length p s) as [|k]; [lia|].
    simpl. rewrite orb_true_r. reflexivity.
  - rewrite greedy_short by exact Hlt. reflexivity.
Qed.

Lemma squeeze_from_run s :
  squeeze_from true s = squeeze_from false (drop (run_length isspace s) s).
Proof.
  induction s as [|c s IH]; [reflexivity|]. simpl.
  destruct (isspace c) eqn:E; [exact IH|].
  simpl. rewrite E. reflexivity.
Qed.

Lemma run_length_head p s :
  holds p (head s) = (0 <? run_length p s).
Proof. destruct s as [|c s]; [reflexivity|]. simpl. destruct (p c); reflexivity. Qed.

Lemma sub_squeeze n : forall s prev,
  length s <= n ->
  sub_from (Rep 2 isspace) [Lit SP] prev s 0 = squeeze_from false s.
Proof.
  induction n as [|n IH]; intros s prev Hlen.
  - destruct s; [|simpl in Hlen; lia].
    rewrite sub_from_step, rep_here. reflexivity.
  - rewrite sub_from_step, rep_here.
    pose proof (run_length_le isspace s) as Hk.
    destruct (Nat.leb_spec 2 (run_length isspace s)) as [Hle|Hlt].
    + destruct (run_length isspace s) as [|k] eqn:Ek; [lia|].
      unfold resume. cbn [m_pos m_groups].
      rewrite IH by (rewrite length_drop; lia).
      destruct s as [|c s]; [discriminate|]. simpl in Ek |- *.
      destruct (isspace c) eqn:E; [|discriminate].
      injection Ek as Ek. rewrite run_length_head, Ek.
      destruct k as [|k]; [lia|]. simpl. rewrite squeeze_from_run, Ek.
      reflexivity.
    + destruct s as [|c s]; [reflexivity|].
      simpl copy_one. rewrite IH by (simpl in Hlen |- *; lia).
      simpl in Hlt |- *.
      destruct (isspace c) eqn:E; [|reflexivity].
      rewrite run_length_head.
      destruct (run_length isspace s) as [|k]; [reflexivity|lia].
Qed.

Lemma squeeze_head s :
  holds isspace (head (squeeze_from true s)) = false
  /\ (holds isspace (head s) = false ->
      holds isspace (head (squeeze_from false s)) = false).
Proof.
  induction s as [|c s [IH1 IH2]]; [split; reflexivity|]. simpl.
  destruct (isspace c) eqn:E; simpl.
  - split; [exact IH1|discriminate].
  - rewrite E. split; reflexivity.
Qed.

Lemma squeeze_single_spaced s : forall b,
  single_spaced (squeeze_from b s) = true.
Proof.
  induction s as [|c s IH]; intros b; [reflexivity|]. simpl.
  destruct (squeeze_head s) as [H1 H2].
  destruct (isspace c) eqn:E.
  - destruct b; [apply IH|].
    destruct (holds isspace (head s)) eqn:Hs.
    + simpl. rewrite H1, IH. reflexivity.
    + simpl. rewrite E, (H2 eq_refl), IH. reflexivity.
  - simpl. rewrite E, IH. reflexivity.
Qed.


Lemma lower_not_space c : lower_az c = true -> isspace c = false.
Proof.
  unfold lower_az, in_range. intros H.
  apply andb_true_iff in H. destruct H as [H1 H2].
  apply N.leb_le in H1, H2. not_space.
Qed.

Lemma upper_not_space c : upper_AZ c = true -> isspace c = false.
Proof.
  unfold upper_AZ, in_range. intros H.
  apply andb_true_iff in H. destruct H as [H1 H2].
  apply N.leb_le in H1, H2. not_space.
Qed.

Lemma upper_not_lower c : upper_AZ c = true -> lower_az c = false.
Proof.
  unfold upper_AZ, lower_az, in_range. intros H.
  apply andb_true_iff in H. destruct H as [H1 H2].
  apply N.leb_le in H1, H2. apply andb_false_iff. left. apply N.leb_gt. lia.
Qed.

Lemma camel_here adv prev s :
  match_here (Grp 1 (Cls lower_az) ⋅ Grp 2 (Cls upper_AZ))%re adv prev s =
  match s with
  | c :: d :: s'' =>
      if lower_az c && upper_AZ d
      then Some (MState (Some d) 2 s'' (<[2 := [d]]> (<[1 := [c]]> ∅)))
      else None
  | _ => None
  end.
Proof.
  unfold match_here. simpl.
  destruct s as [|c [|d s'']]; simpl.
  - reflexivity.
  - destruct (lower_az c); reflexivity.
  - destruct (lower_az c); simpl; [|reflexivity].
    destruct (upper_AZ d); simpl; [|reflexivity].
    rewrite orb_true_r. reflexivity.
Qed.

Lemma sub_camel n : forall s prev,
  length s <= n ->
  sub_from (Grp 1 (Cls lower_az) ⋅ Grp 2 (Cls upper_AZ))%re
           [Ref 1; Lit SP; Ref 2] prev s 0
  = split_camel s.
Proof.
  induction n as [|n IH]; intros s prev Hlen.
  - destruct s; [|simpl in Hlen; lia].
    rewrite sub_from_step, camel_here. reflexivity.
  - rewrite sub_from_step, camel_here.
    destruct s as [|c [|d s'']].
    + reflexivity.
    + cbn [copy_one]. rewrite IH by (simpl in Hlen |- *; lia). simpl.
      rewrite andb_false_r. reflexivity.
    + destruct (lower_az c && upper_AZ d) eqn:E.
      * unfold resume. cbn [m_pos m_groups take drop].
        rewrite drop_0, take_0.
        rewrite IH by (simpl in Hlen; lia).
        apply andb_true_iff in E. destruct E as [Hc Hd].
        simpl. rewrite Hc, Hd, (upper_not_lower _ Hd). simpl.
        rewrite lookup_insert_ne by discriminate.
        rewrite !lookup_insert_eq. reflexivity.
      * cbn [copy_one]. rewrite IH by (simpl in Hlen |- *; lia).
        simpl. rewrite E. reflexivity.
Qed.

Lemma head_split_camel s : head (split_camel s) = head s.
Proof. destruct s; reflexivity. Qed.

Lemma split_camel_single_spaced s :
  single_spaced s = true -> single_spaced (split_camel s) = true.
Proof.
  induction s as [|c s IH]; [reflexivity|].
  cbn [single_spaced split_camel]. intros H.
  apply andb_true_iff in H. destruct H as [Hc Hs]. specialize (IH Hs).
  destruct (lower_az c && holds upper_AZ (head s)) eqn:E.
  - apply andb_true_iff in E. destruct E as [Hl Hu].
    cbn [single_spaced head holds].
    rewrite (lower_not_space _ Hl), head_split_camel, IH.
    destruct (head s) as [d|]; [|discriminate]. simpl in Hu.
    simpl. rewrite (upper_not_space _ Hu). reflexivity.
  - rewrite head_split_camel, Hc, IH. reflexivity.
Qed.


Lemma newline_is_space c : ch NL c = true -> isspace c = true.
Proof. unfold ch. intros E. apply N.eqb_eq in E. subst c. reflexivity. Qed.

Lemma not_space_not_newline o :
  holds isspace o = false -> holds (ch NL) o = false.
Proof.
  destruct o as [c|]; [|reflexivity]. simpl. intros E.
  destruct (ch NL c) eqn:N; [|reflexivity].
  rewrite (newline_is_space _ N) in E. discriminate.
Qed.

Lemma join_lines_from_spaced s : forall b,
  single_spaced s = true ->
  (b = true -> holds isspace (head s) = false) ->
  join_lines_from b s = map nl_to_space s.
Proof.
  induction s as [|c s IH]; intros b Hs Hb; [reflexivity|].
  cbn [single_spaced] in Hs. apply andb_true_iff in Hs.
  destruct Hs as [Hc Hs]. cbn [join_lines_from map].
  unfold nl_to_space at 1.
  destruct (ch NL c) eqn:N.
  - pose proof (newline_is_space _ N) as Hw. rewrite Hw in Hc. simpl in Hc.
    apply negb_true_iff in Hc.
    assert (b = false) as ->.
    { destruct b; [|reflexivity]. specialize (Hb eq_refl). simpl in Hb.
      congruence. }
    rewrite (not_space_not_newline _ Hc). simpl.
    f_equal. apply IH; [exact Hs|]. intros _. exact Hc.
  - simpl. f_equal. apply IH; [exact Hs|discriminate].
Qed.

Lemma nl_to_space_no_newline s : Forall (fun c => ch NL c = false) (map nl_to_space s).
Proof.
  induction s as [|c s IH]; constructor; [|exact IH].
  unfold nl_to_space. destruct (ch NL c) eqn:N; [reflexivity|exact N].
Qed.

Lemma nl_to_space_keeps_spacing s :
  single_spaced (map nl_to_space s) = single_spaced s.
Proof.
  assert (Hw : forall c, isspace (nl_to_space c) = isspace c).
  { intros c. unfold nl_to_space. destruct (ch NL c) eqn:N; [|reflexivity].
    rewrite (newline_is_space _ N). reflexivity. }
  induction s as [|c s IH]; [reflexivity|].
  cbn [map single_spaced]. rewrite IH, Hw. f_equal. f_equal. f_equal.
  destruct s as [|d s]; [reflexivity|]. simpl. apply Hw.
Qed.

Lemma chunks_no_newline s :
  Forall (fun c => ch NL c = false) s -> chunks s = map Other s.
Proof.
  induction 1 as [|c s Hc _ IH]; [reflexivity|]. simpl. rewrite Hc, IH.
  reflexivity.
Qed.

Lemma collapse_breaks_no_newline s :
  Forall (fun c => ch NL c = false) s -> collapse_breaks s = s.
Proof.
  intros H. unfold collapse_breaks. rewrite (chunks_no_newline _ H).
  clear H. induction s as [|c s IH]; [reflexivity|]. simpl. rewrite IH.
  reflexivity.
Qed.

Lemma strip_lead_no_newline cls s :
  Forall (fun c => ch NL c = false) s -> strip_lead cls false s = s.
Proof.
  induction 1 as [|c s Hc _ IH]; [reflexivity|]. simpl. rewrite Hc, IH.
  reflexivity.
Qed.

(** On single-spaced text the paragraph fix-up only turns newlines into
    spaces. *)
Lemma fix_paragraphs_spaced s :
  single_spaced s = true ->
  NLPProcessor._fix_paragraphs s = map nl_to_space s.
Proof.
  intros Hs. rewrite fix_paragraphs_spec.
  destruct (join_lines_from_chunks s) as [<- _].
  rewrite (join_lines_from_spaced s false Hs) by discriminate.
  rewrite collapse_breaks_no_newline by apply nl_to_space_no_newline.
  apply strip_lead_no_newline, nl_to_space_no_newline.
Qed.

Lemma sub_squeeze_spec s :
  Re.sub (Rep 2 isspace) [Lit SP] s = squeeze_from false s.
Proof. apply (sub_squeeze (length s)). lia. Qed.

Lemma sub_camel_spec s :
  Re.sub (Grp 1 (Cls lower_az) ⋅ Grp 2 (Cls upper_AZ))%re
         [Ref 1; Lit SP; Ref 2] s
  = split_camel s.
Proof. apply (sub_camel (length s)). lia. Qed.

(** The last two pattern passes of the normalizer leave single-spaced
    text, whatever the passes before did. *)
Lemma fix_patterns_spaced `{Unicode} text :
  single_spaced (NLPProcessor._fix_patterns text) = true.
Proof.
  unfold NLPProcessor._fix_patterns, NLPProcessor.patterns.
  cbn [fold_left]. rewrite sub_camel_spec, sub_squeeze_spec.
  apply split_camel_single_spaced, squeeze_single_spaced.
Qed.

End TextFacts.

(** X1.  Without a spaCy model, the normalizer ([process_text]) turns a
    text that is not blank into one line: the result is the output of
    the pattern passes with every newline replaced by a space, so it holds
    no newline and no two whitespace code points in a row. *)
Theorem X1_process_text_flattens_lines `{Unicode}
    (self : NLPProcessor.t) (text : str) :
  NLPProcessor.nlp self = None ->
  forallb isspace text = false ->
  NLPProcessor.process_text self text
  = map nl_to_space (NLPProcessor._fix_patterns text)
  /\ ~ In NL (NLPProcessor.process_text self text)
  /\ single_spaced (NLPProcessor.process_text self text) = true.
Proof.
  intros Hnlp Hnb.
  assert (Hp : NLPProcessor.process_text self text
               = map nl_to_space (NLPProcessor._fix_patterns text)).
  { unfold NLPProcessor.process_text. rewrite Hnlp.
    destruct (negb (truthy text) || negb (truthy (strip text))) eqn:G.
    - apply blank_guard in G. congruence.
    - apply fix_paragraphs_spaced, fix_patterns_spaced. }
  split; [exact Hp|]. rewrite Hp. split.
  - intros Hin.
    pose proof (nl_to_space_no_newline (NLPProcessor._fix_patterns text)) as Hf.
    rewrite Forall_forall in Hf. specialize (Hf NL).
    rewrite list_elem_of_In in Hf. specialize (Hf Hin). discriminate.
  - rewrite nl_to_space_keeps_spacing. apply fix_patterns_spaced.
Qed.

Lemma X1_process_text_flattens_lines_witness :
  NLPProcessor.nlp Toy.processor = None
  /\ forallb isspace (lit "Total  due" ++ NL :: lit "12 . 5 kgNet") = false
  /\ @NLPProcessor.process_text ascii_tables Toy.processor
       (lit "Total  due" ++ NL :: lit "12 . 5 kgNet")
     = lit "Total due 12. 5 kg Net".
Proof.
  split; [reflexivity|]. split; [reflexivity|].
  rewrite (proj1 (@X1_process_text_flattens_lines ascii_tables Toy.processor
                    (lit "Total  due" ++ NL :: lit "12 . 5 kgNet")
                    eq_refl eq_refl)).
  vm_compute. reflexivity.
Defined.

(* ===================================================================== *)
(** ** Facts about literal replacement *)
(* ===================================================================== *)

Section ReplaceFacts.

Lemma starts_with_app old s :
  starts_with old s = true -> s = old ++ drop (length old) s.
Proof.
  revert s. induction old as [|a old IH]; intros s H; [reflexivity|].
  destruct s as [|b s]; [discriminate|]. simpl in H.
  apply andb_true_iff in H. destruct H as [Hab H].
  apply N.eqb_eq in Hab. subst b. simpl. f_equal. apply IH, H.
Qed.

Lemma replace_from_skip old new s : forall k,
  k <= length s ->
  replace_from old new s k = replace_from old new (drop k s) 0.
Proof.
  induction s as [|c s IH]; intros k Hk.
  - simpl in Hk. assert (k = 0) by lia. subst k. reflexivity.
  - destruct k as [|k]; [reflexivity|]. simpl in Hk |- *. apply IH. lia.
Qed.

(** A code point that is neither in the text nor in the replacement is
    not in the result. *)
Lemma replace_from_absent a old new s : forall k,
  ~ In a new -> ~ In a s -> ~ In a (replace_from old new s k).
Proof.
  induction s as [|c s IH]; intros k Hn Hs; [exact Hs|].
  assert (Hs' : ~ In a s) by (intros H; apply Hs; right; exact H).
  destruct k as [|k]; simpl; [|apply IH; assumption].
  destruct (starts_with old (c :: s)).
  - intros H. apply in_app_or in H. destruct H as [H|H]; [exact (Hn H)|].
    exact (IH _ Hn Hs' H).
  - intros [H|H]; [apply Hs; left; exact H|exact (IH _ Hn Hs' H)].
Qed.

(** A replaced code point is gone. *)
Lemma replace_from_gone a new s :
  ~ In a new -> ~ In a (replace_from [a] new s 0).
Proof.
  intros Hn. induction s as [|c s IH]; [intros []|]. simpl.
  destruct (N.eqb_spec a c) as [E|E]; simpl.
  - intros H. apply in_app_or in H. destruct H as [H|H]; [exact (Hn H)|].
    exact (IH H).
  - intros [H|H]; [congruence|exact (IH H)].
Qed.

Lemma single_spaced_suffix u v :
  single_spaced (u ++ v) = true -> single_spaced v = true.
Proof.
  induction u as [|c u IH]; [auto|]. simpl. intros H.
  apply andb_true_iff in H. apply IH, H.
Qed.

Lemma single_spaced_prefix new v :
  forallb (fun c => negb (isspace c)) new = true ->
  single_spaced v = true ->
  single_spaced (new ++ v) = true.
Proof.
  intros Hn Hv. induction new as [|c new IH]; [exact Hv|].
  simpl in Hn |- *. apply andb_true_iff in Hn. destruct Hn as [Hc Hn].
  apply negb_true_iff in Hc. rewrite Hc, (IH Hn). reflexivity.
Qed.

Lemma replace_keeps_spacing old new n : forall s,
  old <> [] -> new <> [] ->
  forallb (fun c => negb (isspace c)) new = true ->
  length s <= n ->
  single_spaced s = true ->
  single_spaced (replace_from old new s 0) = true
  /\ (holds isspace (head s) = false ->
      holds isspace (head (replace_from old new s 0)) = false).
Proof.
  intros s Ho Hn Hw. revert s.
  induction n as [|n IH]; intros s Hlen Hs.
  - destruct s; [split; reflexivity|simpl in Hlen; lia].
  - destruct s as [|c s]; [split; reflexivity|].
    cbn [replace_from].
    destruct (starts_with old (c :: s)) eqn:E.
    + apply starts_with_app in E.
      destruct old as [|a old']; [congruence|].
      simpl in E. injection E as _ E. simpl pred. simpl length.
      assert (Hk : length old' <= length s).
      { pose proof (f_equal length E) as El. rewrite length_app in El. lia. }
      rewrite replace_from_skip by exact Hk.
      destruct (IH (drop (length old') s)) as [IH1 _].
      * rewrite length_drop. simpl in Hlen. lia.
      * apply (single_spaced_suffix (c :: old')).
        simpl. rewrite <- E. exact Hs.
      * split; [apply single_spaced_prefix; assumption|].
        intros _. destruct new as [|b new']; [congruence|].
        simpl in Hw |- *.
        apply andb_true_iff in Hw.
        destruct Hw as [Hb _]. apply negb_true_iff in Hb. exact Hb.
    + cbn [single_spaced] in Hs. apply andb_true_iff in Hs.
      destruct Hs as [Hc Hs].
      destruct (IH s) as [IH1 IH2]; [simpl in Hlen; lia|exact Hs|].
      split.
      * cbn [single_spaced]. rewrite IH1, andb_true_r.
        destruct (isspace c) eqn:Wc; [|reflexivity].
        simpl in Hc |- *. apply negb_true_iff in Hc.
        rewrite (IH2 Hc). reflexivity.
      * simpl. auto.
Qed.

(** Replacing an occurrence without whitespace by a non-empty replacement
    without whitespace keeps single-spaced text single-spaced. *)
Lemma replace_single_spaced old new s :
  old <> [] -> new <> [] ->
  forallb (fun c => negb (isspace c)) new = true ->
  single_spaced s = true -> single_spaced (replace old new s) = true.
Proof.
  intros Ho Hn Hw Hs.
  assert (E : replace old new s = replace_from old new s 0).
  { unfold replace. destruct old; [congruence|reflexivity]. }
  rewrite E. apply (replace_keeps_spacing old new (length s)); auto.
Qed.

End ReplaceFacts.

(** Step A ends with the whitespace pass and the three effective entries
    of the glyph table. *)
Lemma step_A_decomposed `{Unicode} (text : str) :
  exists mid,
    single_spaced mid = true
    /\ MLEnhancementModel._apply_rule_based_corrections text
       = replace [194; 180]%N (lit "'")
           (replace (lit "`") (lit "'") (replace (lit "0") (lit "O") mid)).
Proof.
  unfold MLEnhancementModel._apply_rule_based_corrections.
  unfold MLEnhancementModel.common_errors.
  cbn [fold_left]. rewrite sub_squeeze_spec.
  eexists. split; [apply squeeze_single_spaced|]. reflexivity.
Qed.

(** X2.  The rule passes of the corrector
    ([_apply_rule_based_corrections]) return a text without the digit
    zero, without a backtick, and without two whitespace code points in a
    row, for every input. *)
Theorem X2_step_A_output_shape `{Unicode} (text : str) :
  let corrected := MLEnhancementModel._apply_rule_based_corrections text in
  ~ In 48%N corrected /\ ~ In 96%N corrected
  /\ single_spaced corrected = true.
Proof.
  cbv zeta. destruct (step_A_decomposed text) as (mid & Hmid & ->).
  set (r1 := replace (lit "0") (lit "O") mid).
  set (r2 := replace (lit "`") (lit "'") r1).
  assert (H1 : ~ In 48%N r1).
  { apply replace_from_gone. intros [E|[]]. discriminate. }
  assert (H2 : ~ In 48%N r2).
  { apply replace_from_absent; [|exact H1]. intros [E|[]]. discriminate. }
  assert (G2 : ~ In 96%N r2).
  { apply replace_from_gone. intros [E|[]]. discriminate. }
  split; [|split].
  - apply replace_from_absent; [|exact H2]. intros [E|[]]. discriminate.
  - apply replace_from_absent; [|exact G2]. intros [E|[]]. discriminate.
  - apply replace_single_spaced; [discriminate|discriminate|reflexivity|].
    apply replace_single_spaced; [discriminate|discriminate|reflexivity|].
    apply replace_single_spaced; [discriminate|discriminate|reflexivity|].
    exact Hmid.
Qed.

(* ===================================================================== *)
(** ** Facts about confidence scores *)
(* ===================================================================== *)


Section ScoreFacts.

Lemma sum_bounds lo hi l :
  Forall (fun x => lo <= x <= hi)%Q l ->
  (lo * inject_Z (Z.of_nat (length l)) <= fold_right Qplus 0 l
   <= hi * inject_Z (Z.of_nat (length l)))%Q.
Proof.
  induction 1 as [|x l [Hlo Hhi] _ [IHlo IHhi]].
  - simpl. split; ring_simplify; apply Qle_refl.
  - cbn [length fold_right].
    rewrite Nat2Z.inj_succ. unfold Z.succ. rewrite inject_Z_plus.
    change (inject_Z 1) with 1%Q.
    set (N := inject_Z (Z.of_nat (length l))) in *.
    set (T := fold_right Qplus 0%Q l) in *.
    split; lra.
Qed.

(** The mean of a non-empty list lies between any bounds of its
    elements. *)
Lemma mean_bounds lo hi l :
  l <> [] ->
  Forall (fun x => lo <= x <= hi)%Q l ->
  (lo <= OCRModel.mean l <= hi)%Q.
Proof.
  intros Hne Hall. destruct (sum_bounds lo hi l Hall) as [Hlo Hhi].
  assert (Hpos : (0 < inject_Z (Z.of_nat (length l)))%Q).
  { rewrite <- (Zlt_Qlt 0). destruct l; [congruence|]. simpl. lia. }
  unfold OCRModel.mean. split.
  - apply Qle_shift_div_l; assumption.
  - apply Qle_shift_div_r; assumption.
Qed.

Lemma confidences_of_in_range data :
  Forall raw_score (data_conf data) ->
  Forall (fun c => 0 <= c <= 100)%Q (OCRModel.confidences_of data).
Proof.
  unfold OCRModel.confidences_of. destruct data as [texts confs]. simpl.
  intros Hall. revert texts.
  induction Hall as [|c confs Hc _ IH]; intros texts; [constructor|].
  destruct texts as [|t texts]; [constructor|]. simpl.
  destruct (truthy (strip t) && negb (Qeq_bool c (-1))) eqn:E; [|apply IH].
  simpl. constructor; [|apply IH].
  apply andb_true_iff in E. destruct E as [_ E]. apply negb_true_iff in E.
  destruct Hc as [Hc|Hc]; [|exact Hc].
  apply Qeq_bool_iff in Hc. congruence.
Qed.

Lemma confidence_score_in_unit data :
  Forall raw_score (data_conf data) ->
  in_unit (OCRModel.confidence_score_of data).
Proof.
  intros Hall. apply confidences_of_in_range in Hall.
  unfold OCRModel.confidence_score_of, in_unit.
  destruct (OCRModel.confidences_of data) as [|c l] eqn:E.
  - split; [apply Qle_refl|]. unfold Qle. simpl. lia.
  - destruct (mean_bounds 0 100 (c :: l)) as [Hlo Hhi];
      [discriminate|exact Hall|].
    split.
    + apply Qle_shift_div_l; [reflexivity|]. ring_simplify. exact Hlo.
    + apply Qle_shift_div_r; [reflexivity|]. ring_simplify. exact Hhi.
Qed.

Lemma enhance_text_in_unit `{Unicode} ml text c :
  in_unit c -> in_unit (MLEnhancementModel.enhance_text ml text c).2.
Proof.
  intros [H0 H1]. unfold MLEnhancementModel.enhance_text, in_unit.
  destruct (negb (truthy text) || negb (truthy (strip text))); [simpl; auto|].
  destruct (MLEnhancementModel.initialized ml && Qltb c 0.85).
  - destruct (MLEnhancementModel._apply_ml_corrections ml _); simpl; [|auto].
    apply boost_in_unit; [exact H0|lra].
  - simpl. apply boost_in_unit; [exact H0|lra].
Qed.

Section Io.
Context `{Backend}.

Lemma io_bind_Some {A B} (f : A -> io B) (m : io A) log b :
  io_bind f m = (log, Some b) ->
  exists l1 a l2, m = (l1, Some a) /\ f a = (l2, Some b) /\ log = l1 ++ l2.
Proof.
  destruct m as [l1 [a|]]; simpl; [|discriminate].
  destruct (f a) as [l2 r] eqn:E. intros [= <- ->]. eauto 6.
Qed.

Lemma io_bind_None {A B} (f : A -> io B) (m : io A) :
  m.2 = None -> (io_bind f m).2 = None.
Proof. destruct m as [l [a|]]; simpl; [discriminate|reflexivity]. Qed.

Lemma extract_text_from_image_score self img lang log t c :
  well_scored ->
  OCRModel.extract_text_from_image self img lang = (log, Some (t, c)) ->
  in_unit c.
Proof.
  intros Hw. unfold OCRModel.extract_text_from_image, mbind, io_mbind.
  intros E.
  apply io_bind_Some in E. destruct E as (l1 & p & l2 & _ & E & _).
  apply io_bind_Some in E. destruct E as (l3 & [] & l4 & _ & E & _).
  apply io_bind_Some in E. destruct E as (l5 & data & l6 & Hd & E & _).
  unfold io_lift in Hd. injection Hd as _ Hd.
  injection E as _ _ <-.
  apply confidence_score_in_unit. eapply Hw. exact Hd.
Qed.

Lemma page_result_score self lang page log t c :
  well_scored ->
  page_result self lang page = (log, Some (t, c)) -> in_unit c.
Proof.
  intros Hw. unfold page_result, mbind, io_mbind. intros E.
  apply io_bind_Some in E. destruct E as (l1 & layer & l2 & _ & E & _).
  assert (Hraster :
    io_bind (fun img => OCRModel.extract_text_from_image self (inl img) lang)
            (io_lift (page_to_image page)) = (l2, Some (t, c)) -> in_unit c).
  { intros E'. apply io_bind_Some in E'.
    destruct E' as (l3 & img & l4 & _ & E' & _).
    eapply extract_text_from_image_score; eauto. }
  destruct layer as [text|]; [|auto].
  destruct (nonblank text); [|auto].
  injection E as _ _ <-. unfold in_unit. split; lra.
Qed.

Lemma io_sequence_Some {A} (P : A -> Prop) (ms : list (io A)) : forall log rs,
  Forall (fun m => forall l a, m = (l, Some a) -> P a) ms ->
  io_sequence ms = (log, Some rs) -> Forall P rs.
Proof.
  induction ms as [|m ms IH]; intros log rs Hall E.
  - injection E as _ <-. constructor.
  - simpl in E. unfold mbind, io_mbind in E.
    apply io_bind_Some in E. destruct E as (l1 & a & l2 & Hm & E & _).
    apply io_bind_Some in E. destruct E as (l3 & rest & l4 & Hrest & E & _).
    injection E as _ <-.
    apply Forall_cons in Hall. destruct Hall as [Ha Hall].
    constructor; [eapply Ha; eauto|eapply IH; eauto].
Qed.

Lemma io_sequence_None {A} (ms : list (io A)) :
  Exists (fun m => m.2 = None) ms -> (io_sequence ms).2 = None.
Proof.
  induction 1 as [m ms Hm|m ms _ IH]; simpl; unfold mbind, io_mbind.
  - apply io_bind_None, Hm.
  - destruct m as [l [a|]]; [|reflexivity]. simpl.
    destruct (io_bind _ (io_sequence ms)) as [l' r] eqn:E.
    simpl. apply (f_equal snd) in E. simpl in E. rewrite <- E.
    apply io_bind_None, IH.
Qed.

Lemma extract_text_from_pdf_score self path lang log t c :
  well_scored ->
  OCRModel.extract_text_from_pdf self path lang = (log, Some (t, c)) ->
  in_unit c.
Proof.
  intros Hw E.
  unfold OCRModel.extract_text_from_pdf, mbind, io_mbind in E.
  apply io_bind_Some in E. destruct E as (l1 & pages & l2 & _ & E & _).
  rewrite pdf_page_loop_results, io_bind_assoc in E.
  apply io_bind_Some in E. destruct E as (l3 & rs & l4 & Hseq & E & _).
  rewrite io_bind_ret_l in E. simpl in E. injection E as _ _ <-.
  assert (Hall : Forall (fun r : str * Q => in_unit r.2) rs).
  { eapply io_sequence_Some; [|exact Hseq].
    apply Forall_forall. intros m Hm l [t' c'] ->.
    apply list_elem_of_In, in_map_iff in Hm. destruct Hm as (page & Hp & _).
    simpl. eapply page_result_score; eauto. }
  destruct rs as [|r rs]; [simpl; unfold in_unit; split; lra|].
  change (in_unit (OCRModel.mean (map snd (r :: rs)))).
  apply mean_bounds; [discriminate|].
  apply Forall_map. exact Hall.
Qed.

End Io.
End ScoreFacts.

(* ===================================================================== *)
(** ** Facts about the extraction service *)
(* ===================================================================== *)

Section ServiceFacts.
Context `{Unicode} `{Backend}.
Variable sep : codepoint.
Variable altsep : option codepoint.

Lemma file_handlers_cases self ft handler :
  file_handlers self !! ft = Some handler ->
  (ft = lit "pdf" /\ handler = _handle_pdf self)
  \/ (ft = lit "image" /\ handler = _handle_image self).
Proof.
  unfold file_handlers. intros E.
  apply lookup_insert_Some in E. destruct E as [[<- <-]|[_ E]]; [auto|].
  apply lookup_singleton_Some in E. destruct E as [<- <-]. auto.
Qed.

Lemma file_type_pdf path :
  lower (splitext sep altsep path).2 = lit ".pdf" ->
  _determine_file_type sep altsep path = lit "pdf".
Proof.
  intros E. unfold _determine_file_type.
  rewrite bool_decide_eq_true_2 by exact E. reflexivity.
Qed.

Lemma file_type_image path :
  lower (splitext sep altsep path).2 ∈ image_extensions ->
  _determine_file_type sep altsep path = lit "image".
Proof.
  intros E. unfold _determine_file_type.
  rewrite bool_decide_eq_false_2.
  - rewrite bool_decide_eq_true_2 by exact E. reflexivity.
  - intros Epdf. rewrite Epdf in E. revert E. vm_compute. intros E.
    repeat (apply elem_of_cons in E; destruct E as [E|E]; [discriminate|]).
    apply elem_of_nil in E. exact E.
Qed.

Lemma extract_text_with_handler self path lang enhance handler :
  file_handlers self !! _determine_file_type sep altsep path = Some handler ->
  extract_text sep altsep self path lang enhance
  = io_bind (after_handler self enhance) (handler path lang).
Proof.
  intros E. unfold extract_text. rewrite E.
  unfold mbind, io_mbind. apply io_bind_ext. intros [text confidence].
  reflexivity.
Qed.

Lemma after_handler_returns self enhance text c :
  exists log c',
    after_handler self enhance (text, c)
    = (log, Some (NLPProcessor.process_text (nlp_processor self)
                    (if enhance
                     then match ml_model self with
                          | Some model =>
                              (MLEnhancementModel.enhance_text model text c).1
                          | None => text
                          end
                     else text), c'))
    /\ (in_unit c -> in_unit c').
Proof.
  unfold after_handler, mbind, io_mbind, mret, io_mret.
  destruct enhance; [destruct (ml_model self) as [model|]|].
  - pose proof (enhance_text_in_unit model text c) as Hu.
    destruct (MLEnhancementModel.enhance_text model text c) as [t' c'].
    simpl in *. eauto.
  - simpl. eauto.
  - simpl. eauto.
Qed.

End ServiceFacts.

Section MoreFacts.

Lemma checked_world_well_scored : @well_scored Samples.checked_world.
Proof.
  intros img lang data. simpl. unfold Samples.checked_data.
  destruct (Toy.ti_data img) as [d|]; [|discriminate].
  destruct (forallb Samples.raw_scoreb (data_conf d)) eqn:E; [|discriminate].
  intros [= <-]. apply Forall_forall. intros c Hc.
  apply list_elem_of_In in Hc.
  rewrite forallb_forall in E. specialize (E c Hc).
  unfold Samples.raw_scoreb in E. apply orb_true_iff in E.
  destruct E as [E|E].
  - left. apply Qeq_bool_iff, E.
  - right. apply andb_true_iff in E. destruct E as [E1 E2].
    split; apply Qle_bool_iff; assumption.
Qed.

Context `{Unicode} `{Backend}.
Variable sep : codepoint.
Variable altsep : option codepoint.

Lemma handle_image_returns self path lang :
  exists log r, _handle_image self path lang = (log, Some r).
Proof.
  unfold _handle_image, io_try.
  match goal with |- context [match ?m with _ => _ end] =>
    destruct m as [l [a|]] end; simpl; eauto.
Qed.

Lemma handle_image_score self path lang log t c :
  well_scored ->
  _handle_image self path lang = (log, Some (t, c)) -> in_unit c.
Proof.
  intros Hw. unfold _handle_image, io_try.
  match goal with |- context [match ?m with _ => _ end] =>
    destruct m as [l [a|]] eqn:E end; simpl.
  - intros [= <- ->]. unfold mbind, io_mbind in E.
    apply io_bind_Some in E. destruct E as (l1 & img & l2 & _ & E & _).
    apply io_bind_Some in E. destruct E as (l3 & pre & l4 & _ & E & _).
    apply io_bind_Some in E. destruct E as (l5 & desk & l6 & _ & E & _).
    eapply extract_text_from_image_score; eauto.
  - intros [= _ _ <-]. unfold in_unit. split; lra.
Qed.

Lemma process_text_flat (self : NLPProcessor.t) (text : str) :
  NLPProcessor.nlp self = None ->
  forallb isspace text = false ->
  NLPProcessor.process_text self text
  = map nl_to_space (NLPProcessor._fix_patterns text).
Proof.
  intros Hnlp Hnb. unfold NLPProcessor.process_text. rewrite Hnlp.
  destruct (negb (truthy text) || negb (truthy (strip text))) eqn:G.
  - apply blank_guard in G. congruence.
  - apply fix_paragraphs_spaced, fix_patterns_spaced.
Qed.

Lemma process_text_blank_or_flat (self : NLPProcessor.t) (text : str) :
  NLPProcessor.nlp self = None ->
  forallb isspace (NLPProcessor.process_text self text) = true
  \/ ~ In NL (NLPProcessor.process_text self text).
Proof.
  intros Hnlp. destruct (forallb isspace text) eqn:Hb.
  - left. unfold NLPProcessor.process_text.
    apply blank_guard in Hb. rewrite Hb.
    apply blank_guard. exact Hb.
  - right. rewrite process_text_flat by assumption. intros Hin.
    pose proof (nl_to_space_no_newline (NLPProcessor._fix_patterns text)) as Hf.
    rewrite Forall_forall in Hf. specialize (Hf NL).
    rewrite list_elem_of_In in Hf. specialize (Hf Hin). discriminate.
Qed.

End MoreFacts.


(** X3.  When the recognizer only reports confidences in [0,100] or
    the sentinel -1, every confidence that [extract_text] returns lies in
    [0,1], for every path, language and setting of [enhance]. *)
Theorem X3_extract_text_confidence_in_unit `{Unicode} `{Backend}
    (sep : codepoint) (altsep : option codepoint)
    (self : TextExtractionService.t) (file_path : str)
    (source_lang : option str) (enhance : bool)
    (log : list event) (text : str) (c : Q) :
  well_scored ->
  extract_text sep altsep self file_path source_lang enhance
  = (log, Some (text, c)) ->
  (0 <= c <= 1)%Q.
Proof.
  intros Hw E.
  destruct (file_handlers self !! _determine_file_type sep altsep file_path)
    as [handler|] eqn:Hh.
  - rewrite (extract_text_with_handler _ _ _ _ _ _ _ Hh) in E.
    apply io_bind_Some in E.
    destruct E as (l1 & [t0 c0] & l2 & Hhandler & E & _).
    assert (Hc0 : in_unit c0).
    { apply file_handlers_cases in Hh. destruct Hh as [[_ ->]|[_ ->]].
      - eapply extract_text_from_pdf_score; eauto.
      - eapply handle_image_score; eauto. }
    destruct (after_handler_returns self enhance t0 c0)
      as (l & c' & E' & Hu).
    rewrite E' in E. injection E as _ _ <-. apply Hu, Hc0.
  - unfold extract_text in E. rewrite Hh in E. injection E as _ _ <-.
    split; lra.
Qed.

Lemma X3_extract_text_confidence_in_unit_witness :
  @well_scored Samples.checked_world
  /\ exists log text c,
       @extract_text ascii_tables Samples.checked_world 47 None Toy.service
         (lit "scan.png") (Some (lit "auto")) true
       = (log, Some (text, c))
       /\ (0 <= c <= 1)%Q.
Proof.
  split; [exact checked_world_well_scored|].
  eexists _, _, _. split; [vm_compute; reflexivity|].
  eapply (@X3_extract_text_confidence_in_unit ascii_tables Samples.checked_world
            47 None Toy.service (lit "scan.png") (Some (lit "auto")) true).
  - exact checked_world_well_scored.
  - vm_compute. reflexivity.
Defined.

Section PdfFacts.
Context `{Backend}.

Lemma extract_text_from_pdf_open_raises self path lang :
  pdfplumber_open path = None ->
  OCRModel.extract_text_from_pdf self path lang = ([], None).
Proof.
  intros E. unfold OCRModel.extract_text_from_pdf, mbind, io_mbind.
  rewrite E. reflexivity.
Qed.

Lemma extract_text_from_pdf_page_raises self path lang pages :
  pdfplumber_open path = Some pages ->
  Exists (fun page => (page_result self lang page).2 = None) pages ->
  (OCRModel.extract_text_from_pdf self path lang).2 = None.
Proof.
  intros E Hex. unfold OCRModel.extract_text_from_pdf, mbind, io_mbind.
  rewrite E. change (io_lift (Some pages)) with (io_ret pages).
  rewrite (io_bind_ret_l pages), pdf_page_loop_results, io_bind_assoc.
  apply io_bind_None, io_sequence_None, Exists_exists.
  apply Exists_exists in Hex. destruct Hex as (page & Hin & Hp).
  exists (page_result self lang page). split; [|exact Hp].
  apply list_elem_of_In, in_map, list_elem_of_In, Hin.
Qed.

Lemma page_result_text_raises self lang page :
  page_extract_text page = None -> (page_result self lang page).2 = None.
Proof.
  intros E. unfold page_result, mbind, io_mbind. rewrite E. reflexivity.
Qed.

End PdfFacts.

(** X4.  The PDF path of [extract_text] has no handler of its own: when
    the document cannot be opened, when reading the text layer of a page
    raises, or when a page fails in recognition, the exception leaves
    [extract_text]. *)
Theorem X4_pdf_failures_propagate `{Unicode} `{Backend}
    (sep : codepoint) (altsep : option codepoint)
    (self : TextExtractionService.t) (file_path : str)
    (source_lang : option str) (enhance : bool) :
  lower (splitext sep altsep file_path).2 = lit ".pdf" ->
  (pdfplumber_open file_path = None ->
   extract_text sep altsep self file_path source_lang enhance = ([], None))
  /\ (forall pages,
        pdfplumber_open file_path = Some pages ->
        Exists (fun page =>
                  (page_result (ocr_model self) source_lang page).2 = None)
               pages ->
        (extract_text sep altsep self file_path source_lang enhance).2 = None)
  /\ (forall pages,
        pdfplumber_open file_path = Some pages ->
        Exists (fun page => page_extract_text page = None) pages ->
        (extract_text sep altsep self file_path source_lang enhance).2 = None).
Proof.
  intros Hext.
  assert (Hh : file_handlers self !! _determine_file_type sep altsep file_path
               = Some (_handle_pdf self)).
  { rewrite (file_type_pdf _ _ _ Hext). unfold file_handlers.
    apply lookup_insert_eq. }
  rewrite (extract_text_with_handler _ _ _ _ _ _ _ Hh).
  unfold _handle_pdf.
  assert (Hpages : forall pages,
        pdfplumber_open file_path = Some pages ->
        Exists (fun page =>
                  (page_result (ocr_model self) source_lang page).2 = None)
               pages ->
        (io_bind (after_handler self enhance)
           (OCRModel.extract_text_from_pdf (ocr_model self) file_path
              source_lang)).2 = None).
  { intros pages Ho Hex. apply io_bind_None.
    eapply extract_text_from_pdf_page_raises; eauto. }
  split; [|split].
  - intros Ho. rewrite extract_text_from_pdf_open_raises by exact Ho.
    reflexivity.
  - exact Hpages.
  - intros pages Ho Hex. apply (Hpages pages Ho).
    eapply Exists_impl; [exact Hex|]. intros page.
    apply page_result_text_raises.
Qed.

Lemma X4_pdf_failures_propagate_witness :
  @lower ascii_tables (splitext 47 None (lit "missing.pdf")).2 = lit ".pdf"
  /\ @pdfplumber_open Toy.world (lit "missing.pdf") = None
  /\ @extract_text ascii_tables Toy.world 47 None Toy.service
       (lit "missing.pdf") (Some (lit "auto")) true = ([], None).
Proof.
  split; [reflexivity|]. split; [reflexivity|].
  apply (@X4_pdf_failures_propagate ascii_tables Toy.world 47 None Toy.service
           (lit "missing.pdf") (Some (lit "auto")) true eq_refl).
  reflexivity.
Defined.

(** X5.  For a path with an image extension [extract_text] always
    returns: whatever raises in [_handle_image] (opening, preprocessing,
    deskewing, recognition) is answered with the text
    "Image processing failed" and confidence 0. *)
Theorem X5_image_path_never_raises `{Unicode} `{Backend}
    (sep : codepoint) (altsep : option codepoint)
    (self : TextExtractionService.t) (file_path : str)
    (source_lang : option str) (enhance : bool) :
  lower (splitext sep altsep file_path).2 ∈ image_extensions ->
  (exists log result,
     extract_text sep altsep self file_path source_lang enhance
     = (log, Some result))
  /\ (Image_open file_path = None ->
      _handle_image self file_path source_lang = ([], Some failed_image))
  /\ (forall img,
        Image_open file_path = Some img ->
        ImagePreprocessor.preprocess (inl img) ImagePreprocessor.auto = None ->
        _handle_image self file_path source_lang = ([], Some failed_image))
  /\ (forall img preprocessed,
        Image_open file_path = Some img ->
        ImagePreprocessor.preprocess (inl img) ImagePreprocessor.auto
        = Some preprocessed ->
        ImagePreprocessor.deskew (inl preprocessed) = None ->
        _handle_image self file_path source_lang = ([], Some failed_image))
  /\ (forall img preprocessed deskewed log,
        Image_open file_path = Some img ->
        ImagePreprocessor.preprocess (inl img) ImagePreprocessor.auto
        = Some preprocessed ->
        ImagePreprocessor.deskew (inl preprocessed) = Some deskewed ->
        OCRModel.extract_text_from_image (ocr_model self) deskewed source_lang
        = (log, None) ->
        _handle_image self file_path source_lang = (log, Some failed_image)).
Proof.
  intros Hext.
  assert (Hh : file_handlers self !! _determine_file_type sep altsep file_path
               = Some (_handle_image self)).
  { rewrite (file_type_image _ _ _ Hext). unfold file_handlers.
    rewrite lookup_insert_ne by discriminate. apply lookup_singleton_eq. }
  split; [|split; [|split; [|split]]].
  - rewrite (extract_text_with_handler _ _ _ _ _ _ _ Hh).
    destruct (handle_image_returns self file_path source_lang)
      as (l1 & [t0 c0] & ->).
    destruct (after_handler_returns self enhance t0 c0) as (l2 & c' & E & _).
    unfold io_bind. rewrite E. eauto.
  - intros E. unfold _handle_image, mbind, io_mbind. rewrite E. reflexivity.
  - intros img E1 E2. unfold _handle_image, mbind, io_mbind.
    rewrite E1. simpl. rewrite E2. reflexivity.
  - intros img pre E1 E2 E3. unfold _handle_image, mbind, io_mbind.
    rewrite E1. simpl. rewrite E2. simpl. rewrite E3. reflexivity.
  - intros img pre desk log E1 E2 E3 E4.
    unfold _handle_image, mbind, io_mbind.
    rewrite E1. simpl. rewrite E2. simpl. rewrite E3. simpl. rewrite E4.
    simpl. rewrite app_nil_r. reflexivity.
Qed.

Lemma X5_image_path_never_raises_witness :
  (@lower ascii_tables (splitext 47 None (lit "missing.png")).2
   ∈ image_extensions)
  /\ @Image_open Toy.world (lit "missing.png") = None
  /\ @_handle_image Toy.world Toy.service (lit "missing.png")
       (Some (lit "auto"))
     = ([], Some failed_image).
Proof.
  assert (Hext : @lower ascii_tables (splitext 47 None (lit "missing.png")).2
                 ∈ image_extensions).
  { vm_compute. apply elem_of_cons. left. reflexivity. }
  split; [exact Hext|]. split; [reflexivity|].
  apply (@X5_image_path_never_raises ascii_tables Toy.world 47 None Toy.service
           (lit "missing.png") (Some (lit "auto")) true Hext).
  reflexivity.
Defined.

(** X6.  Without a spaCy model, a text returned by [extract_text] is
    blank or holds no newline: the blank lines that
    [extract_text_from_pdf] puts between pages do not survive the
    normalizer. *)
Theorem X6_extract_text_has_no_line_breaks `{Unicode} `{Backend}
    (sep : codepoint) (altsep : option codepoint)
    (self : TextExtractionService.t) (file_path : str)
    (source_lang : option str) (enhance : bool)
    (log : list event) (text : str) (c : Q) :
  NLPProcessor.nlp (nlp_processor self) = None ->
  extract_text sep altsep self file_path source_lang enhance
  = (log, Some (text, c)) ->
  forallb isspace text = true \/ ~ In NL text.
Proof.
  intros Hnlp E.
  destruct (file_handlers self !! _determine_file_type sep altsep file_path)
    as [handler|] eqn:Hh.
  - rewrite (extract_text_with_handler _ _ _ _ _ _ _ Hh) in E.
    apply io_bind_Some in E.
    destruct E as (l1 & [t0 c0] & l2 & _ & E & _).
    destruct (after_handler_returns self enhance t0 c0) as (l & c' & E' & _).
    rewrite E' in E. injection E as _ <- _.
    apply process_text_blank_or_flat, Hnlp.
  - unfold extract_text in E. rewrite Hh in E. injection E as _ <- _.
    right. vm_compute. intros Hin.
    repeat (destruct Hin as [Hin|Hin]; [discriminate|]). exact Hin.
Qed.

Lemma X6_extract_text_has_no_line_breaks_witness :
  NLPProcessor.nlp (nlp_processor Toy.service) = None
  /\ exists log text c,
       @extract_text ascii_tables Toy.world 47 None Toy.service
         (lit "doc.pdf") (Some (lit "auto")) false
       = (log, Some (text, c))
       /\ (forallb isspace text = true \/ ~ In NL text).
Proof.
  split; [reflexivity|].
  eexists _, _, _. split; [vm_compute; reflexivity|].
  eapply (@X6_extract_text_has_no_line_breaks ascii_tables Toy.world 47 None
            Toy.service (lit "doc.pdf") (Some (lit "auto")) false).
  - reflexivity.
  - vm_compute. reflexivity.
Defined.

(** X7.  For a confidence in [0,1], [enhance_text] never lowers it and
    never raises it by more than 15 percent, nor above 1 (over the
    rationals). *)
Theorem X7_enhance_text_only_raises_confidence `{Unicode}
    (ml : MLEnhancementModel.t) (text : str) (c : Q) :
  (0 <= c <= 1)%Q ->
  (c <= (MLEnhancementModel.enhance_text ml text c).2 <= Qmin 1 (c * 1.15))%Q.
Proof.
  intros [H0 H1]. unfold MLEnhancementModel.enhance_text.
  assert (Hc : (c <= Qmin 1 (c * 1.15))%Q) by (apply Q.min_glb; lra).
  destruct (negb (truthy text) || negb (truthy (strip text)));
    [simpl; split; [lra|exact Hc]|].
  destruct (MLEnhancementModel.initialized ml && Qltb c 0.85).
  - destruct (MLEnhancementModel._apply_ml_corrections ml _); simpl.
    + split; [exact Hc|lra].
    + split; [lra|exact Hc].
  - simpl. split.
    + apply Q.min_glb; lra.
    + apply Q.min_le_compat_l. lra.
Qed.

Lemma X7_enhance_text_only_raises_confidence_witness :
  (0 <= 0.6 <= 1)%Q
  /\ (0.6 <= (@MLEnhancementModel.enhance_text ascii_tables Toy.model
                (lit "l5Hello.World") 0.6).2)%Q.
Proof.
  assert (Hc : (0 <= 0.6 <= 1)%Q) by (split; unfold Qle; simpl; lia).
  split; [exact Hc|].
  exact (proj1 (@X7_enhance_text_only_raises_confidence ascii_tables Toy.model
                  (lit "l5Hello.World") 0.6 Hc)).
Defined.

(* ===================================================================== *)
(** ** Facts about the skew angle *)
(* ===================================================================== *)


Section MedianFacts.

Lemma insert_sorted_In x l y :
  In y (insert_sorted x l) <-> y = x \/ In y l.
Proof.
  induction l as [|z l IH]; simpl.
  - split; [intros [<-|[]]; auto|intros [->|[]]; auto].
  - destruct (Qle_bool x z); simpl.
    + split; [intros [<-|H]; auto|intros [->|H]; auto].
    + rewrite IH. tauto.
Qed.

Lemma sorted_In l y : In y (sorted l) <-> In y l.
Proof.
  unfold sorted. induction l as [|x l IH]; simpl; [tauto|].
  rewrite insert_sorted_In, IH. split; intros [H|H]; auto.
Qed.

Lemma insert_sorted_length x l : length (insert_sorted x l) = S (length l).
Proof.
  induction l as [|z l IH]; simpl; [reflexivity|].
  destruct (Qle_bool x z); simpl; [reflexivity|]. rewrite IH. reflexivity.
Qed.

Lemma sorted_length l : length (sorted l) = length l.
Proof.
  unfold sorted. induction l as [|x l IH]; simpl; [reflexivity|].
  rewrite insert_sorted_length, IH. reflexivity.
Qed.

(** The median of a non-empty list lies between any bounds of its
    elements. *)
Lemma median_bounds lo hi l :
  l <> [] ->
  Forall (fun x => lo <= x <= hi)%Q l ->
  (lo <= median l <= hi)%Q.
Proof.
  intros Hne Hall.
  assert (Hnth : forall i, i < length (sorted l) ->
                           (lo <= nth i (sorted l) 0 <= hi)%Q).
  { intros i Hi. rewrite Forall_forall in Hall. apply Hall.
    apply list_elem_of_In, sorted_In, nth_In, Hi. }
  assert (Hpos : 0 < length (sorted l)).
  { rewrite sorted_length. destruct l; [congruence|simpl; lia]. }
  unfold median. cbv zeta.
  assert (Hhalf : length (sorted l) / 2 < length (sorted l))
    by (apply Nat.div_lt; lia).
  destruct (Nat.even (length (sorted l))).
  - destruct (Hnth (length (sorted l) / 2 - 1)) as [A1 A2]; [lia|].
    destruct (Hnth (length (sorted l) / 2)) as [B1 B2]; [lia|].
    split.
    + apply Qle_shift_div_l; [reflexivity|]. lra.
    + apply Qle_shift_div_r; [reflexivity|]. lra.
  - apply Hnth, Hhalf.
Qed.

Context `{Backend}.

Lemma collect_angles_bounds contours : forall angles result,
  Forall (fun c => forall a, minAreaRect_angle c = Some a ->
                             (-90 <= a <= 0)%Q) contours ->
  Forall (fun a => -45 <= a <= 45)%Q angles ->
  collect_angles contours angles = Some result ->
  Forall (fun a => -45 <= a <= 45)%Q result.
Proof.
  induction contours as [|c contours IH]; intros angles result Hc Ha E.
  - injection E as <-. exact Ha.
  - apply Forall_cons in Hc. destruct Hc as [Hc Hcs]. simpl in E.
    destruct (contourArea c) as [area|]; [|discriminate]. simpl in E.
    destruct (Qltb area 100); [eapply IH; eauto|].
    destruct (minAreaRect_angle c) as [a|] eqn:Er; [|discriminate].
    simpl in E. specialize (Hc a eq_refl).
    eapply IH; [exact Hcs| |exact E].
    apply Forall_app. split; [exact Ha|]. constructor; [|constructor].
    destruct (Qltb a (-45)) eqn:Ew.
    + apply Qltb_lt in Ew. split; lra.
    + apply Qltb_ge in Ew. split; lra.
Qed.

End MedianFacts.

(** X8.  When every rectangle angle that OpenCV reports lies in
    [-90,0], the angle [deskew] rotates by (the median of the normalized
    angles, or 0 without large contours) lies in [-45,45]. *)
Theorem X8_skew_angle_within_45_degrees `{Backend}
    (gray binary : ndarray) (contours : list contour) (angle : Q) :
  threshold_otsu_inv gray = Some binary ->
  findContours binary = Some contours ->
  Forall (fun c => forall a, minAreaRect_angle c = Some a ->
                             (-90 <= a <= 0)%Q) contours ->
  skew_angle gray = Some angle ->
  (-45 <= angle <= 45)%Q.
Proof.
  intros Ht Hf Hc. unfold skew_angle. rewrite Ht. simpl. rewrite Hf. simpl.
  destruct (collect_angles contours []) as [angles|] eqn:E; [|discriminate].
  simpl. intros [= <-].
  pose proof (collect_angles_bounds contours [] angles Hc (List.Forall_nil _) E)
    as Hall.
  destruct angles as [|a angles]; [split; lra|].
  apply median_bounds; [discriminate|exact Hall].
Qed.

Lemma X8_skew_angle_within_45_degrees_witness :
  @skew_angle Toy.world Samples.tilted_scan = Some (-10)%Q
  /\ (-45 <= -10 <= 45)%Q.
Proof.
  split; [vm_compute; reflexivity|].
  apply (@X8_skew_angle_within_45_degrees Toy.world Samples.tilted_scan
           Samples.tilted_scan
           [(Some 400%Q, Some (-80)%Q); (Some 900%Q, Some (-10)%Q);
            (Some 500%Q, Some (-30)%Q)] (-10)%Q).
  - reflexivity.
  - reflexivity.
  - repeat (apply List.Forall_cons;
            [simpl; intros a [= <-]; unfold Qle; simpl; lia|]).
    apply List.Forall_nil.
  - vm_compute. reflexivity.
Defined.

(* ===================================================================== *)
(** ** Facts about paths *)
(* ===================================================================== *)

Section PathFacts.

Lemma In_drop {A} (x : A) (l : list A) k : In x (drop k l) -> In x l.
Proof.
  revert l; induction k as [|k IH]; intros [|a l]; simpl; auto.
Qed.

Lemma not_In_drop {A} (x : A) (l : list A) j k :
  (j <= k)%nat -> ~ In x (drop j l) -> ~ In x (drop k l).
Proof.
  intros Hjk Hn Hin. apply Hn.
  replace k with (j + (k - j))%nat in Hin by lia.
  rewrite <- drop_drop in Hin. exact (In_drop _ _ _ Hin).
Qed.

(** [rfind] scans the whole string: it returns the accumulator when the
    code point does not occur, and otherwise the start index plus the
    position of the last occurrence. *)
Lemma rfind_from_cases c s :
  (~ In c s /\ forall i found, rfind_from c s i found = found)
  \/ exists k, (k < length s)%nat
               /\ drop k s = c :: drop (S k) s
               /\ ~ In c (drop (S k) s)
               /\ forall i found, rfind_from c s i found = (i + Z.of_nat k)%Z.
Proof.
  induction s as [|d s IH]; [left; split; [intros []|reflexivity]|].
  destruct IH as [[Hn E]|(k & Hk & Hd & Hn & E)].
  - destruct (N.eqb_spec d c) as [->|Hdc].
    + right. exists 0%nat. simpl. rewrite drop_0.
      repeat split; [lia|exact Hn|].
      intros i found. rewrite N.eqb_refl, E. lia.
    + left. split; [intros [H|H]; [congruence|exact (Hn H)]|].
      intros i found. simpl. rewrite E.
      destruct (N.eqb_spec d c); [congruence|reflexivity].
  - right. exists (S k). simpl.
    repeat split; [lia|exact Hd|exact Hn|].
    intros i found. rewrite E. lia.
Qed.

Lemma rfind_spec c s :
  (rfind c s = (-1)%Z /\ ~ In c s)
  \/ exists k, rfind c s = Z.of_nat k /\ (k < length s)%nat
               /\ drop k s = c :: drop (S k) s
               /\ ~ In c (drop (S k) s).
Proof.
  unfold rfind. destruct (rfind_from_cases c s) as [[Hn E]|(k & Hk & Hd & Hn & E)].
  - left. split; [apply E|exact Hn].
  - right. exists k. rewrite E. split; [lia|]. split; [exact Hk|].
    split; [exact Hd|exact Hn].
Qed.

Lemma rfind_ge c s : (-1 <= rfind c s)%Z.
Proof. destruct (rfind_spec c s) as [[-> _]|(j & -> & _)]; lia. Qed.

Lemma rfind_lt c s : (rfind c s < Z.of_nat (length s))%Z.
Proof. destruct (rfind_spec c s) as [[-> _]|(j & -> & ? & _)]; lia. Qed.

Lemma rfind_from_app c u v : forall i found,
  rfind_from c (u ++ v) i found
  = rfind_from c v (i + Z.of_nat (length u)) (rfind_from c u i found).
Proof.
  induction u as [|d u IH]; intros i found; simpl.
  - f_equal. lia.
  - rewrite IH. f_equal. lia.
Qed.

Lemma rfind_from_shift c s i found :
  rfind_from c s i found
  = if (rfind c s =? -1)%Z then found else (i + rfind c s)%Z.
Proof.
  unfold rfind. destruct (rfind_from_cases c s) as [[_ E]|(k & _ & _ & _ & E)].
  - rewrite !E. reflexivity.
  - rewrite !E. destruct (Z.eqb_spec (0 + Z.of_nat k) (-1)); lia.
Qed.

(** The last occurrence in [u ++ v] is the one of [v], if any. *)
Lemma rfind_app c u v :
  rfind c (u ++ v)
  = if (rfind c v =? -1)%Z then rfind c u
    else (Z.of_nat (length u) + rfind c v)%Z.
Proof.
  unfold rfind at 1. rewrite rfind_from_app, rfind_from_shift.
  reflexivity.
Qed.

Lemma rfind_absent c s : ~ In c s -> rfind c s = (-1)%Z.
Proof.
  intros Hn. destruct (rfind_spec c s) as [[E _]|(k & _ & _ & Hd & _)];
    [exact E|].
  exfalso. apply Hn. apply (In_drop c s k). rewrite Hd. left. reflexivity.
Qed.

Lemma rfind_snoc c u : rfind c (u ++ [c]) = Z.of_nat (length u).
Proof.
  assert (E : rfind c [c] = 0%Z)
    by (unfold rfind; simpl; rewrite N.eqb_refl; reflexivity).
  rewrite rfind_app, E. simpl. lia.
Qed.

Variable sep : codepoint.
Variable altsep : option codepoint.

Lemma splitext_shape p :
  (splitext sep altsep p).1 ++ (splitext sep altsep p).2 = p
  /\ ((splitext sep altsep p).2 = []
      \/ exists e, (splitext sep altsep p).2 = DOT :: e
                   /\ ~ In DOT e /\ ~ In sep e
                   /\ (forall a, altsep = Some a -> ~ In a e)).
Proof.
  unfold splitext.
  set (sepIndex := match altsep with
                   | Some a => Z.max (rfind sep p) (rfind a p)
                   | None => rfind sep p
                   end).
  destruct ((sepIndex <? rfind DOT p)%Z
            && has_name p (sepIndex + 1) (rfind DOT p)) eqn:E;
    cbn [fst snd]; [|split; [apply app_nil_r|left; reflexivity]].
  split; [apply take_drop|]. right.
  apply andb_true_iff in E. destruct E as [E _]. apply Z.ltb_lt in E.
  destruct (rfind_spec DOT p) as [[Ed _]|(k & Ed & Hk & Hd & Hn)].
  { exfalso. rewrite Ed in E.
    assert (-1 <= sepIndex)%Z; [|lia].
    unfold sepIndex. destruct altsep; [|apply rfind_ge].
    pose proof (rfind_ge sep p). lia. }
  rewrite Ed, Nat2Z.id, Hd in *. exists (drop (S k) p).
  split; [reflexivity|]. split; [exact Hn|].
  assert (Hlast : forall c, (rfind c p < Z.of_nat k)%Z ->
                            ~ In c (drop (S k) p)).
  { intros c Hc. destruct (rfind_spec c p) as [[_ Hc']|(j & Ej & _ & _ & Hj)].
    - intros Hin. exact (Hc' (In_drop _ _ _ Hin)).
    - apply (not_In_drop c p (S j) (S k)); [lia|exact Hj]. }
  unfold sepIndex in E. split.
  - apply Hlast. destruct altsep; lia.
  - intros a ->. apply Hlast. lia.
Qed.

(** The extension is that of the last path component. *)
Lemma splitext_last_component dir name :
  ~ In sep name -> (forall a, altsep = Some a -> ~ In a name) ->
  (splitext sep altsep (dir ++ sep :: name)).2 = (splitext sep altsep name).2.
Proof.
  intros Hs Ha.
  replace (dir ++ sep :: name) with ((dir ++ [sep]) ++ name)
    by (rewrite <- app_assoc; reflexivity).
  set (u := dir ++ [sep]).
  assert (Hu : length u = S (length dir)).
  { unfold u. rewrite length_app. simpl. lia. }
  unfold splitext.
  set (sI := match altsep with
             | Some a => Z.max (rfind sep (u ++ name)) (rfind a (u ++ name))
             | None => rfind sep (u ++ name)
             end).
  set (sI' := match altsep with
              | Some a => Z.max (rfind sep name) (rfind a name)
              | None => rfind sep name
              end).
  assert (EsI : sI = Z.of_nat (length dir)).
  { assert (Esu : rfind sep u = Z.of_nat (length dir)) by apply rfind_snoc.
    unfold sI. rewrite rfind_app, (rfind_absent sep name Hs), Esu. simpl.
    destruct altsep as [a|]; [|reflexivity].
    rewrite rfind_app, (rfind_absent a name (Ha a eq_refl)). simpl.
    pose proof (rfind_lt a u). lia. }
  assert (EsI' : sI' = (-1)%Z).
  { unfold sI'. rewrite (rfind_absent sep name Hs).
    destruct altsep as [a|]; [|reflexivity].
    rewrite (rfind_absent a name (Ha a eq_refl)). reflexivity. }
  rewrite EsI, EsI'. rewrite rfind_app.
  destruct (Z.eqb_spec (rfind DOT name) (-1)) as [E|E].
  - rewrite E. pose proof (rfind_lt DOT u).
    destruct (Z.ltb_spec (Z.of_nat (length dir)) (rfind DOT u)); [lia|].
    reflexivity.
  - pose proof (rfind_ge DOT name).
    destruct (Z.ltb_spec (Z.of_nat (length dir))
                (Z.of_nat (length u) + rfind DOT name)); [|lia].
    destruct (Z.ltb_spec (-1) (rfind DOT name)); [|lia].
    cbn [andb].
    assert (Eh : has_name (u ++ name) (Z.of_nat (length dir) + 1)
                   (Z.of_nat (length u) + rfind DOT name)
                 = has_name name (-1 + 1) (rfind DOT name)).
    { unfold has_name. f_equal.
      replace (Z.to_nat (Z.of_nat (length dir) + 1)) with (length u) by lia.
      rewrite drop_app_length. simpl Z.to_nat. rewrite drop_0.
      f_equal. lia. }
    rewrite Eh. destruct (has_name name (-1 + 1) (rfind DOT name));
      cbn [snd]; [|reflexivity].
    replace (Z.to_nat (Z.of_nat (length u) + rfind DOT name))
      with (length u + Z.to_nat (rfind DOT name))%nat by lia.
    rewrite drop_app_add'; [reflexivity|reflexivity].
Qed.

End PathFacts.

(** X9.  The file type is decided by the last path component alone:
    the directories of the path, dotted or not, have no influence on
    [_determine_file_type]. *)
Theorem X9_file_type_of_last_component `{Unicode}
    (sep : codepoint) (altsep : option codepoint) (dir name : str) :
  ~ In sep name ->
  (forall a, altsep = Some a -> ~ In a name) ->
  _determine_file_type sep altsep (dir ++ sep :: name)
  = _determine_file_type sep altsep name.
Proof.
  intros Hs Ha. unfold _determine_file_type.
  rewrite (splitext_last_component sep altsep dir name Hs Ha). reflexivity.
Qed.

Lemma X9_file_type_of_last_component_witness :
  ~ In 47%N (lit "notes.PNG")
  /\ (forall a, @None codepoint = Some a -> ~ In a (lit "notes.PNG"))
  /\ @_determine_file_type ascii_tables 47 None
       (lit "/data/archive.pdf" ++ 47%N :: lit "notes.PNG")
     = @_determine_file_type ascii_tables 47 None (lit "notes.PNG").
Proof.
  assert (Hs : ~ In 47%N (lit "notes.PNG")).
  { intros H. repeat (destruct H as [H|H]; [discriminate H|]). exact H. }
  assert (Ha : forall a, @None codepoint = Some a -> ~ In a (lit "notes.PNG")).
  { intros a E. discriminate E. }
  split; [exact Hs|]. split; [exact Ha|].
  exact (@X9_file_type_of_last_component ascii_tables 47 None
           (lit "/data/archive.pdf") (lit "notes.PNG") Hs Ha).
Defined.

(* ===================================================================== *)
(** ** Facts about the upload check *)
(* ===================================================================== *)


Section HandlerFacts.

Lemma rfind_last c u v :
  ~ In c v -> rfind c (u ++ c :: v) = Z.of_nat (length u).
Proof.
  intros Hn.
  replace (u ++ c :: v) with ((u ++ [c]) ++ v)
    by (rewrite <- app_assoc; reflexivity).
  rewrite rfind_app, (rfind_absent c v Hn). simpl. apply rfind_snoc.
Qed.

Lemma rsplit1_last c u v :
  ~ In c v -> FileHandler.rsplit1 c (u ++ c :: v) = [u; v].
Proof.
  intros Hn. unfold FileHandler.rsplit1. rewrite (rfind_last c u v Hn).
  destruct (Z.ltb_spec (Z.of_nat (length u)) 0); [lia|].
  rewrite Nat2Z.id.
  replace (Z.to_nat (Z.of_nat (length u) + 1)) with (S (length u)) by lia.
  rewrite take_app_length.
  replace (u ++ c :: v) with ((u ++ [c]) ++ v)
    by (rewrite <- app_assoc; reflexivity).
  replace (S (length u)) with (length (u ++ [c]))
    by (rewrite length_app; simpl; lia).
  rewrite drop_app_length. reflexivity.
Qed.

(** A string that contains [c] splits at the last [c]. *)
Lemma last_occurrence (c : codepoint) (s : str) :
  In c s -> exists u v, s = u ++ c :: v /\ ~ In c v.
Proof.
  intros Hin. destruct (rfind_spec c s) as [[_ Hn]|(k & _ & _ & Hd & Hn)];
    [contradiction|].
  exists (take k s), (drop (S k) s). split; [|exact Hn].
  rewrite <- Hd. symmetry. apply take_drop.
Qed.

Context `{Unicode}.

Lemma allowed_file_at_last_dot self root e :
  ~ In DOT e ->
  FileHandler.allowed_file self (root ++ DOT :: e)
  = Some (bool_decide (lower e ∈ FileHandler.allowed_extensions self)).
Proof.
  intros Hn. unfold FileHandler.allowed_file.
  rewrite bool_decide_eq_true_2
    by (apply elem_of_app; right; apply elem_of_cons; left; reflexivity).
  rewrite (rsplit1_last DOT root e Hn). reflexivity.
Qed.

End HandlerFacts.

(** X10.  [allowed_file] never raises, and it accepts exactly the names
    [root.e] whose text [e] after the last dot is, in lower case, one of
    the allowed extensions. *)
Theorem X10_allowed_file_checks_text_after_last_dot `{Unicode}
    (self : FileHandler.t) (filename : str) :
  (exists b, FileHandler.allowed_file self filename = Some b)
  /\ (FileHandler.allowed_file self filename = Some true
      <-> exists root e, filename = root ++ DOT :: e /\ ~ In DOT e
            /\ lower e ∈ FileHandler.allowed_extensions self).
Proof.
  destruct (decide (DOT ∈ filename)) as [Hin|Hout].
  - apply list_elem_of_In in Hin.
    destruct (last_occurrence DOT filename Hin) as (u & v & -> & Hn).
    rewrite (allowed_file_at_last_dot self u v Hn).
    split; [eexists; reflexivity|]. split.
    + intros [= E]. apply bool_decide_eq_true_1 in E.
      exists u, v. split; [reflexivity|]. split; [exact Hn|exact E].
    + intros (root & e & E & Hne & He).
      assert (Hlen : length u = length root).
      { apply Nat2Z.inj. rewrite <- (rfind_last DOT u v Hn).
        rewrite E. apply rfind_last. exact Hne. }
      apply app_inj_1 in E; [|exact Hlen]. destruct E as [_ [= <-]].
      rewrite bool_decide_eq_true_2 by exact He. reflexivity.
  - unfold FileHandler.allowed_file. rewrite bool_decide_eq_false_2 by exact Hout.
    split; [eexists; reflexivity|]. split; [discriminate|].
    intros (root & e & -> & _). exfalso. apply Hout.
    apply elem_of_app. right. apply elem_of_cons. left. reflexivity.
Qed.

Section AgreementFacts.
Context `{Unicode}.

Lemma default_extensions_cases (x : str) :
  x ∈ FileHandler.default_extensions
  <-> DOT :: x = lit ".pdf" \/ DOT :: x ∈ image_extensions.
Proof.
  unfold FileHandler.default_extensions, image_extensions.
  rewrite !elem_of_union, !elem_of_singleton, !elem_of_cons, elem_of_nil.
  split.
  - intros [[[[[[->| ->]| ->]| ->]| ->]| ->]| ->]; cbn; tauto.
  - intros [E|[E|[E|[E|[E|[E|[E|[]]]]]]]]; injection E as ->; tauto.
Qed.

Lemma file_type_known (ext : str) :
  (if bool_decide (ext = lit ".pdf") then lit "pdf"
   else if bool_decide (ext ∈ image_extensions) then lit "image"
   else lit "unknown") <> lit "unknown"
  <-> ext = lit ".pdf" \/ ext ∈ image_extensions.
Proof.
  destruct (bool_decide_reflect (ext = lit ".pdf")) as [E|E];
    [split; [tauto|discriminate]|].
  destruct (bool_decide_reflect (ext ∈ image_extensions)) as [E'|E'];
    [split; [tauto|discriminate]|].
  split; [congruence|tauto].
Qed.

Lemma splitext_named (sep : codepoint) (altsep : option codepoint)
    (root e : str) :
  ~ In DOT e -> ~ In sep (root ++ DOT :: e) ->
  (forall a, altsep = Some a -> ~ In a (root ++ DOT :: e)) ->
  existsb (fun c => negb (c =? DOT)%N) root = true ->
  splitext sep altsep (root ++ DOT :: e) = (root, DOT :: e).
Proof.
  intros Hn Hs Ha Hname. unfold splitext.
  rewrite (rfind_last DOT root e Hn), (rfind_absent sep _ Hs).
  assert (E : match altsep with
              | Some a => Z.max (-1) (rfind a (root ++ DOT :: e))
              | None => (-1)%Z
              end = (-1)%Z).
  { destruct altsep as [a|]; [|reflexivity].
    rewrite (rfind_absent a _ (Ha a eq_refl)). reflexivity. }
  rewrite E.
  destruct (Z.ltb_spec (-1) (Z.of_nat (length root))); [|lia].
  unfold has_name. simpl Z.to_nat. rewrite drop_0.
  replace (Z.to_nat (Z.of_nat (length root) - (-1 + 1))) with (length root)
    by lia.
  rewrite take_app_length, Hname. cbn [andb].
  rewrite Nat2Z.id, take_app_length, drop_app_length. reflexivity.
Qed.

End AgreementFacts.

(** X11.  The upload check and the extraction service agree on plain
    file names: for a name [root.e] without separators whose [root] is
    not made of dots only, [allowed_file] with the default extensions
    accepts the name exactly when [_determine_file_type] finds a handler
    for it (lowering being indifferent to the leading dot). *)
Theorem X11_upload_check_agrees_with_file_type `{Unicode}
    (sep : codepoint) (altsep : option codepoint)
    (folder root e : str) :
  ~ In DOT e -> ~ In sep (root ++ DOT :: e) ->
  (forall a, altsep = Some a -> ~ In a (root ++ DOT :: e)) ->
  existsb (fun c => negb (c =? DOT)%N) root = true ->
  lower (DOT :: e) = DOT :: lower e ->
  FileHandler.allowed_file (FileHandler.create folder None) (root ++ DOT :: e)
  = Some true
  <-> _determine_file_type sep altsep (root ++ DOT :: e) <> lit "unknown".
Proof.
  intros Hn Hs Ha Hname Hlow.
  rewrite (allowed_file_at_last_dot _ root e Hn).
  unfold _determine_file_type.
  rewrite (splitext_named sep altsep root e Hn Hs Ha Hname).
  cbn [snd FileHandler.create FileHandler.allowed_extensions].
  rewrite file_type_known, Hlow, <- default_extensions_cases.
  split.
  - intros [= E]. exact (bool_decide_eq_true_1 _ E).
  - intros E. rewrite bool_decide_eq_true_2 by exact E. reflexivity.
Qed.

Lemma X11_upload_check_agrees_with_file_type_witness :
  ~ In DOT (lit "JPG") /\ ~ In 47%N (lit "scan" ++ DOT :: lit "JPG")
  /\ (forall a, @None codepoint = Some a -> ~ In a (lit "scan" ++ DOT :: lit "JPG"))
  /\ existsb (fun c => negb (c =? DOT)%N) (lit "scan") = true
  /\ @lower ascii_tables (DOT :: lit "JPG") = DOT :: @lower ascii_tables (lit "JPG")
  /\ (@FileHandler.allowed_file ascii_tables
        (FileHandler.create (lit "uploads") None) (lit "scan" ++ DOT :: lit "JPG")
      = Some true
      <-> @_determine_file_type ascii_tables 47 None (lit "scan" ++ DOT :: lit "JPG")
          <> lit "unknown").
Proof.
  assert (Hn : ~ In DOT (lit "JPG")).
  { intros H. repeat (destruct H as [H|H]; [discriminate H|]). exact H. }
  assert (Hs : ~ In 47%N (lit "scan" ++ DOT :: lit "JPG")).
  { intros H. repeat (destruct H as [H|H]; [discriminate H|]). exact H. }
  assert (Ha : forall a, @None codepoint = Some a
                         -> ~ In a (lit "scan" ++ DOT :: lit "JPG")).
  { intros a E. discriminate E. }
  assert (Hname : existsb (fun c => negb (c =? DOT)%N) (lit "scan") = true)
    by reflexivity.
  assert (Hlow : @lower ascii_tables (DOT :: lit "JPG")
                 = DOT :: @lower ascii_tables (lit "JPG")) by reflexivity.
  repeat (split; [assumption|]).
  exact (@X11_upload_check_agrees_with_file_type ascii_tables 47 None
           (lit "uploads") (lit "scan") (lit "JPG") Hn Hs Ha Hname Hlow).
Defined.

(* ===================================================================== *)
(** ** The translation layer *)
(* ===================================================================== *)


(** X12.  The translation service adds nothing to the model's
    [translate]: its own guards and its language detection give the
    result the model gives when called directly (language detection being
    a function of the text). *)
Theorem X12_translation_service_defers_to_model
    (detect : str -> option str) (self : TranslationService.t)
    (text source_lang target_lang : str) :
  TranslationService.translate detect self text source_lang target_lang
  = TranslationModel.translate detect (TranslationService.translation_model self)
      text source_lang target_lang.
Proof.
  unfold TranslationService.translate, TranslationModel.translate,
    TranslationService.detect_language, TranslationModel.blank.
  destruct (negb (truthy text) || negb (truthy (strip text))) eqn:G;
    [reflexivity|].
  cbv zeta.
  destruct (decide (source_lang = lit "auto")) as [Ea|Ea].
  - rewrite !(bool_decide_eq_true_2 _ Ea).
    set (d := TranslationModel.detect_language detect _ text).
    destruct (decide (d = target_lang)) as [Et|Et].
    + rewrite !(bool_decide_eq_true_2 _ Et). reflexivity.
    + destruct (decide (d = lit "auto")) as [Ed|Ed];
        repeat first [ rewrite (bool_decide_eq_false_2 _ Et)
                     | rewrite (bool_decide_eq_true_2 _ Ed)
                     | rewrite (bool_decide_eq_false_2 _ Ed)
                     | progress cbv iota ];
        reflexivity.
  - rewrite !(bool_decide_eq_false_2 _ Ea).
    destruct (bool_decide (source_lang = target_lang)); reflexivity.
Qed.

(** X13.  When every call of a translation client raises, the model's
    [translate] returns the text it was given, whatever the languages
    and whatever language detection does. *)
Theorem X13_translate_returns_input_when_services_fail
    (detect : str -> option str) (self : TranslationModel.t)
    (text source_lang target_lang : str) :
  (forall client source target,
     TranslationModel.deepl_client self = Some client ->
     TranslationModel.translate_text client text source target = None) ->
  (forall client target source,
     TranslationModel.google_client self = Some client ->
     TranslationModel.g_translate client text target source = None) ->
  TranslationModel.translate detect self text source_lang target_lang = text.
Proof.
  intros Hd Hg. unfold TranslationModel.translate.
  destruct (TranslationModel.blank text); [reflexivity|].
  set (src := if bool_decide (source_lang = lit "auto")
              then TranslationModel.detect_language detect self text
              else source_lang).
  destruct (bool_decide (src = target_lang)); [reflexivity|].
  assert (Eg : match TranslationModel.google_client self with
               | Some client =>
                   match TranslationModel.g_translate client text target_lang
                           (if bool_decide (src = lit "auto")
                            then None else Some src) with
                   | Some translated => translated
                   | None => text
                   end
               | None => text
               end = text).
  { destruct (TranslationModel.google_client self) as [g|] eqn:E;
      [|reflexivity].
    rewrite (Hg g _ _ eq_refl). reflexivity. }
  rewrite Eg.
  destruct (TranslationModel.deepl_client self) as [d|] eqn:E; [|reflexivity].
  destruct (TranslationModel.language_mapping self !! target_lang
              ≫= (.!! lit "deepl")) as [target|]; [|reflexivity].
  destruct (truthy target); [|reflexivity].
  rewrite (Hd d _ _ eq_refl). reflexivity.
Qed.

Lemma X13_translate_returns_input_when_services_fail_witness :
  (forall client source target,
     TranslationModel.deepl_client Samples.translator = Some client ->
     TranslationModel.translate_text client (lit "bonjour") source target = None)
  /\ (forall client target source,
        TranslationModel.google_client Samples.translator = Some client ->
        TranslationModel.g_translate client (lit "bonjour") target source = None)
  /\ TranslationModel.translate Samples.no_langdetect Samples.translator
       (lit "bonjour") (lit "fr") (lit "es") = lit "bonjour".
Proof.
  assert (Hd : forall client source target,
             TranslationModel.deepl_client Samples.translator = Some client ->
             TranslationModel.translate_text client (lit "bonjour") source target
             = None).
  { intros client source target [= <-]. reflexivity. }
  assert (Hg : forall client target source,
             TranslationModel.google_client Samples.translator = Some client ->
             TranslationModel.g_translate client (lit "bonjour") target source
             = None).
  { intros client target source [= <-]. reflexivity. }
  split; [exact Hd|]. split; [exact Hg|].
  exact (X13_translate_returns_input_when_services_fail Samples.no_langdetect
           Samples.translator (lit "bonjour") (lit "fr") (lit "es") Hd Hg).
Defined.

(** X14.  A PDF without pages gives the empty text with confidence 0,
    and the recognizer is never called. *)
Theorem X14_pdf_without_pages_gives_empty_text `{Unicode} `{Backend}
    (sep : codepoint) (altsep : option codepoint)
    (self : TextExtractionService.t) (file_path : str)
    (source_lang : option str) (enhance : bool) :
  lower (splitext sep altsep file_path).2 = lit ".pdf" ->
  pdfplumber_open file_path = Some [] ->
  exists log,
    extract_text sep altsep self file_path source_lang enhance
    = (log, Some ([], 0%Q))
    /\ forall img lang, ~ In (Recognize img lang) log.
Proof.
  intros Hext Hopen.
  assert (Hh : file_handlers self !! _determine_file_type sep altsep file_path
               = Some (_handle_pdf self)).
  { rewrite (file_type_pdf _ _ _ Hext). unfold file_handlers.
    apply lookup_insert_eq. }
  rewrite (extract_text_with_handler _ _ _ _ _ _ _ Hh).
  unfold _handle_pdf, OCRModel.extract_text_from_pdf, mbind, io_mbind.
  rewrite Hopen. cbn.
  destruct enhance; [destruct (ml_model self) as [model|]|]; cbn;
    (eexists; split; [reflexivity|]);
    intros img lang Hin;
    repeat (destruct Hin as [Hin|Hin]; [discriminate Hin|]); exact Hin.
Qed.

Lemma X14_pdf_without_pages_gives_empty_text_witness :
  @lower ascii_tables (splitext 47 None (lit "empty.pdf")).2 = lit ".pdf"
  /\ @pdfplumber_open Samples.checked_world (lit "empty.pdf") = Some []
  /\ exists log,
       @extract_text ascii_tables Samples.checked_world 47 None Toy.service
         (lit "empty.pdf") (Some (lit "auto")) true
       = (log, Some ([], 0%Q))
       /\ forall img lang, ~ In (Recognize img lang) log.
Proof.
  split; [reflexivity|]. split; [reflexivity|].
  exact (@X14_pdf_without_pages_gives_empty_text ascii_tables Samples.checked_world
           47 None Toy.service (lit "empty.pdf") (Some (lit "auto")) true
           eq_refl eq_refl).
Defined.
